(** * kala / fixity: content-addressed store, Parts assembler, block chain,
      query parser, index query and HTTP handlers.

    A shallow embedding of the Go sources and the properties of the
    specification that concern them.  Go packages are Rocq modules; Go
    interfaces are type classes; Go [string] and [[]byte] are both [string]
    (sequences of bytes); Go [int] and [int64] are [Z]. *)

From Stdlib Require Import ZArith NArith Lia Ascii String.
From stdpp Require Import base option list strings pretty gmap.

Open Scope string_scope.
Open Scope list_scope.
Open Scope Z_scope.

(** ** Errors

    Go compares [error] values by identity.  The sentinel errors of the
    packages are constructors; errors made on the spot by [errors.New] and
    [fmt.Errorf], and the wrappers of [github.com/leeola/errors], carry their
    arguments.  A wrapper is never identical to a sentinel. *)
Inductive error : Type :=
| HashNotFoundErr              (* store.HashNotFoundErr *)
| HashNotMatchContentErr       (* store.HashNotMatchContentErr *)
| ErrNoPrev                    (* fixity.ErrNoPrev *)
| ErrEmptyBlockchain           (* fixity.ErrEmptyBlockchain *)
| ErrNoQueryResults            (* index.ErrNoQueryResults *)
| ErrIndexVersionsDoNotMatch   (* index.ErrIndexVersionsDoNotMatch *)
| ErrNoRecord                  (* database.ErrNoRecord *)
| EOF                          (* io.EOF *)
| ErrSyntax                    (* strconv.ErrSyntax, inside a NumError *)
| ErrRange                     (* strconv.ErrRange, inside a NumError *)
| OSError (msg : string)       (* an error of the operating system *)
| New (msg : string)           (* errors.New(msg) *)
| Errorf (msg : string) (e : error)     (* fmt.Errorf(msg ++ ": %v", e) *)
| Wrapped (e : error) (msg : string)    (* errors.Wrap(e, msg), e non-nil *)
| Stacked (e : error).                  (* errors.Stack(e), e non-nil *)

(** A Go result [(T, error)]: either the error or the value. *)
Definition result (A : Type) : Type := error + A.

Module errors.
(** [errors.Wrap(err, msg)]: nil when [err] is nil. *)
Definition Wrap (err : option error) (msg : string) : option error :=
  match err with
  | None => None
  | Some e => Some (Wrapped e msg)
  end.

(** [errors.Stack(err)]: nil when [err] is nil. *)
Definition Stack (err : option error) : option error :=
  match err with
  | None => None
  | Some e => Some (Stacked e)
  end.
End errors.

(** ** encoding/hex *)
Module hex.
Definition hextable : string := "0123456789abcdef".

Definition digit (n : N) : ascii :=
  match String.get (N.to_nat n) hextable with
  | Some c => c
  | None => "0"%char
  end.

(** dst[j] = hextable[v>>4]; dst[j+1] = hextable[v&0x0f] *)
Fixpoint EncodeToString (src : string) : string :=
  match src with
  | EmptyString => EmptyString
  | String v rest =>
      let n := N_of_ascii v in
      String (digit (N.shiftr n 4)) (String (digit (N.land n 15)) (EncodeToString rest))
  end.

(** The value of a hexadecimal digit, used to invert the encoding. *)
Definition value (c : ascii) : N :=
  let n := N_of_ascii c in
  if (n <? 58)%N then (n - 48)%N else (n - 87)%N.

Fixpoint DecodeString (s : string) : string :=
  match s with
  | String a (String b rest) =>
      String (ascii_of_N (value a * 16 + value b)) (DecodeString rest)
  | _ => EmptyString
  end.
End hex.

(** ** The operating system's files

    A directory tree as a finite map from path to contents.  A call can fail
    with an error of the system other than "does not exist" (permissions, a
    failing device): the paths on which [os.Stat], [os.Open] and
    [ioutil.WriteFile] fail are part of the environment. *)
Module os.
Record FS : Type := {
  files : gmap string string;
  stat_err : gmap string string;
  open_err : gmap string string;
  write_err : gmap string string;
}.

Inductive outcome (A : Type) : Type :=
| Ok (a : A)
| NotExist
| Failed (msg : string).
Arguments Ok {A} a.
Arguments NotExist {A}.
Arguments Failed {A} msg.

Definition Stat (fs : FS) (p : string) : outcome unit :=
  match stat_err fs !! p with
  | Some msg => Failed msg
  | None => match files fs !! p with
            | Some _ => Ok tt
            | None => NotExist
            end
  end.

Definition Open (fs : FS) (p : string) : outcome string :=
  match open_err fs !! p with
  | Some msg => Failed msg
  | None => match files fs !! p with
            | Some b => Ok b
            | None => NotExist
            end
  end.

(** [ioutil.WriteFile(p, b, 0644)]: creates or replaces the file. *)
Definition WriteFile (fs : FS) (p : string) (b : string) : option error * FS :=
  match write_err fs !! p with
  | Some msg => (Some (OSError msg), fs)
  | None => (None, {| files := <[p := b]> (files fs);
                      stat_err := stat_err fs;
                      open_err := open_err fs;
                      write_err := write_err fs |})
  end.
End os.

Module filepath.
(** [filepath.Join(dir, name)] for the single-component names the stores
    use (a hash has no separator and no dot). *)
Definition Join (dir name : string) : string := dir +:+ "/" +:+ name.
End filepath.

(** ** The hash function of the disk store

    [blake2b.Sum256] comes from a vendored library: it is a parameter. *)
Class Blake2b : Type := { Sum256 : string → string }.

(** ** package store: the Store interface *)
Module store.
Class Store (St : Type) : Type := {
  Exists : St → string → result bool;
  Read : St → string → result string;
  Write : St → string → result string * St;
  WriteHash : St → string → string → option error * St;
}.

(** [WriteHashReader(s, h, r)].  The store is a value of the interface and
    the reader is given by the bytes [ioutil.ReadAll] yields, so the two nil
    tests of the source never fire. *)
Definition WriteHashReader {St : Type} `{!Store St} (s : St) (h : string)
    (r : string) : option error * St :=
  let b := r in
  let '(err, s') := WriteHash s h b in
  (* do not wrap hash not match err *)
  match err with
  | Some HashNotMatchContentErr => (err, s')
  | _ => (errors.Wrap err "store failed to write", s')
  end.

(** [WriteReader(s, r)] *)
Definition WriteReader {St : Type} `{!Store St} (s : St) (r : string)
    : result string * St :=
  let b := r in
  let '(res, s') := Write s b in
  match res with
  | inl e => (inl (Wrapped e "store failed to write"), s')
  | inr h => (inr h, s')
  end.

(** [ReadParts(s, h)] *)
Definition ReadParts {St : Type} `{!Store St} (s : St) (h : string) : option error :=
  Some (New "not implemented").
End store.

(** ** package disk: the store on a file system *)
Module disk.
Record Disk : Type := {
  path : string;
  fs : os.FS;
}.

Definition Exists (s : Disk) (h : string) : result bool :=
  let p := filepath.Join (path s) h in
  match os.Stat (fs s) p with
  | os.NotExist => inr false
  | os.Failed msg => inl (Wrapped (OSError msg) ("disk store failed to stat hash: " +:+ h))
  | os.Ok _ => inr true
  end.

(** Modelled from the spec: the source of [Read] stops after the not-exist
    test.  "Read(ref)->byte stream, fails NotFound": another error of
    [os.Open] is returned as it is, otherwise the bytes of the file. *)
Definition Read (s : Disk) (h : string) : result string :=
  let p := filepath.Join (path s) h in
  match os.Open (fs s) p with
  | os.NotExist => inl HashNotFoundErr
  | os.Failed msg => inl (OSError msg)
  | os.Ok b => inr b
  end.

Definition Hash `{Blake2b} (b : string) : string :=
  let h := Sum256 b in
  "blake2b256-" +:+ hex.EncodeToString h.

(** writeHash is a trusted implementation that does not verify the hash.
    The source has lines missing between the path and the write; what is
    left writes [b] to the file [p]. *)
Definition writeHash (s : Disk) (h : string) (b : string) : option error * Disk :=
  let p := filepath.Join (path s) h in
  let '(err, fs') := os.WriteFile (fs s) p b in
  (errors.Wrap err "failed to write to disk", {| path := path s; fs := fs' |}).

Definition Write `{Blake2b} (s : Disk) (b : string) : result string * Disk :=
  let h := Hash b in
  match writeHash s h b with
  | (Some err, s') => (inl err, s')
  | (None, s') => (inr h, s')
  end.

Definition WriteHash `{Blake2b} (s : Disk) (h : string) (b : string)
    : option error * Disk :=
  let expectedH := Hash b in
  if decide (h ≠ expectedH) then (Some HashNotMatchContentErr, s)
  else writeHash s h b.

#[global] Instance Disk_Store `{Blake2b} : store.Store Disk := {|
  store.Exists := Exists;
  store.Read := Read;
  store.Write := Write;
  store.WriteHash := WriteHash;
|}.
End disk.

(** ** Machine integers and slices *)

(** The value of a 64-bit signed result: Go's [int] and [int64] wrap around. *)
Definition wrap64 (x : Z) : Z := (x + 2 ^ 63) mod 2 ^ 64 - 2 ^ 63.

(** [l[lo:hi]] for bounds within the slice. *)
Definition slice {A : Type} (l : list A) (lo hi : Z) : list A :=
  take (Z.to_nat (hi - lo)) (drop (Z.to_nat lo) l).

(** [len(l)] *)
Definition len {A : Type} (l : list A) : Z := Z.of_nat (length l).

(** ** package fixity: the persisted records *)
Module fixity.

Definition Ref : Type := string.

Inductive BlobType : Type := BlobTypeParts | BlobTypeData | BlobTypeValues.

(** Modelled from the spec: the declarations of the schemas are not in the
    sources.  "Parts page: {chunkRefs (≤ pageSize), morePartsRef?}" and
    "Data/Blob node: {size, checksum, embedded chunk refs, morePartsRef?}";
    the field names are those [WriteData] assigns. *)
Record PartsSchema : Type := {
  SchemaType : BlobType;
  Parts : list Ref;
  MoreParts : option Ref;
}.

Record DataSchema : Type := {
  Data_PartsSchema : PartsSchema;
  Size : Z;
  Checksum : string;
}.

(** Chunk: the boundaries are not stored. *)
Record Chunk : Type := {
  ChunkBytes : string;
  Chunk_Size : Z;
  StartBoundry : Z;
  EndBoundry : Z;
}.

Record Blob : Type := {
  ChunkHashes : list string;
  Blob_Size : Z;
  RollSize : Z;
}.

(** Content.  [Hash], [Index] and [Store] are not stored ([json:"-"]).  The
    store is threaded through the functions explicitly, so the field [Store]
    only records whether the Go field is set. *)
Record Content : Type := {
  Id : string;
  PreviousContentHash : string;
  BlobHash : string;
  IndexedFields : list (string * string);
  Content_Hash : string;
  Index : Z;
  Content_Store : bool;
}.

(** Modelled from the spec: the declaration of Block is not in the sources.
    "Block: {number, previousBlockRef?, contentRef}"; the field names are
    those [Local.Write] and [Block.Previous] use, except that the Go field
    [Block] (the number) is [BlockNum] here.  [Hash] and [Store] are not
    stored. *)
Record Block : Type := {
  BlockNum : Z;
  PreviousBlockHash : string;
  ContentHash : string;
  Block_Hash : string;
  Block_Store : bool;
}.

End fixity.

(** ** package index: query parameters and results *)
Module index.

(** Modelled from the spec: the declarations of package index are not in the
    sources.  "Query(query)->{indexVersion, refs} with parameters
    {fromEntry:int, limit:int, indexVersion:string}"; the field names are
    those [Dbindex.Query] uses. *)

Record Query : Type := {
  FromEntry : Z;
  Limit : Z;
  IndexVersion : string;
}.

Record Results : Type := {
  Results_IndexVersion : string;
  Hashes : list string;
}.

Record Result : Type := {
  Result_IndexVersion : string;
  Hash : string;
}.

End index.

(** ** encoding/json

    The values the code hands to [json.Marshal], and [json.Unmarshal] at each
    type the code decodes.  The encoder is a library: a parameter.  Fields
    tagged [json:"-"] are neither written nor read. *)
Module json.

Inductive value : Type :=
| VParts (p : fixity.PartsSchema)
| VData (d : fixity.DataSchema)
| VChunk (c : fixity.Chunk)
| VBlob (b : fixity.Blob)
| VContent (c : fixity.Content)
| VBlock (b : fixity.Block)
| VResults (r : index.Results).

Class Json : Type := {
  Marshal : value → result string;
  UnmarshalParts : string → result fixity.PartsSchema;
  UnmarshalData : string → result fixity.DataSchema;
  UnmarshalContent : string → result fixity.Content;
  UnmarshalBlock : string → result fixity.Block;
}.

(** What decoding into a fresh variable yields for a record that was
    encoded: the fields that are not stored are zero. *)
Definition storedContent (c : fixity.Content) : fixity.Content :=
  {| fixity.Id := fixity.Id c;
     fixity.PreviousContentHash := fixity.PreviousContentHash c;
     fixity.BlobHash := fixity.BlobHash c;
     fixity.IndexedFields := fixity.IndexedFields c;
     fixity.Content_Hash := "";
     fixity.Index := 0;
     fixity.Content_Store := false |}.

Definition storedBlock (b : fixity.Block) : fixity.Block :=
  {| fixity.BlockNum := fixity.BlockNum b;
     fixity.PreviousBlockHash := fixity.PreviousBlockHash b;
     fixity.ContentHash := fixity.ContentHash b;
     fixity.Block_Hash := "";
     fixity.Block_Store := false |}.

End json.

(** ** package wutil: the Parts assembler *)
Module wutil.
Import fixity.

(** [fixity.BlobWriter]: [Write(ctx, b) (Ref, error)]. *)
Class BlobWriter (W : Type) : Type := {
  Write : W → string → result Ref * W;
}.

Section WithWriter.
Context {W : Type} `{!BlobWriter W} `{!json.Json}.

Definition partSize : Z := 100.

Definition MarshalAndWrite (w : W) (v : json.value) : result Ref * W :=
  match json.Marshal v with
  | inl err => (inl (Errorf "marshal" err), w)
  | inr b =>
      match Write w b with
      | (inl err, w') => (inl (Errorf "blob write" err), w')
      | (inr ref, w') => (inr ref, w')
      end
  end.

(** The loop [for i := morePartCount; i > 0; i--] of [WriteData]; the
    counter is the recursion argument. *)
Fixpoint writeParts (w : W) (i : nat) (morePartCount chunkRefLen : Z)
    (chunkRefs : list Ref) (lastPart : option Ref)
    : result (list Ref * option Ref) * W :=
  match i with
  | O => (inr (chunkRefs, lastPart), w)
  | S i' =>
      let iz := Z.of_nat i in
      let startBound := partSize * iz in
      let endBound :=
        if iz =? morePartCount
        then startBound + Z.rem chunkRefLen partSize
        else startBound + partSize in
      let part := {| SchemaType := BlobTypeParts;
                     Parts := slice chunkRefs startBound endBound;
                     MoreParts := lastPart |} in
      match MarshalAndWrite w (json.VParts part) with
      | (inl err, w') =>
          (inl (Errorf ("marshalandwrite part " +:+ pretty iz) err), w')
      | (inr ref, w') =>
          writeParts w' i' morePartCount chunkRefLen (chunkRefs ++ [ref]) (Some ref)
      end
  end.

Definition WriteData (w : W) (chunkRefs : list Ref) (totalSize : Z)
    (contentHash : string) : result (list Ref * DataSchema) * W :=
  let chunkRefLen := len chunkRefs in
  let morePartCount := Z.quot (chunkRefLen - 1) partSize in
  match writeParts w (Z.to_nat morePartCount) morePartCount chunkRefLen chunkRefs None with
  | (inl err, w') => (inl err, w')
  | (inr (chunkRefs, lastPart), w') =>
      let endBound := if chunkRefLen <? partSize then chunkRefLen else partSize in
      (* now we've written all the parts except for the most important
         one, the content which has a part embedded. *)
      let data := {| Data_PartsSchema :=
                       {| SchemaType := BlobTypeData;
                          Parts := slice chunkRefs 0 endBound;
                          MoreParts := lastPart |};
                     Size := totalSize;
                     Checksum := contentHash |} in
      match MarshalAndWrite w' (json.VData data) with
      | (inl err, w'') => (inl (Errorf "marshalandwrite content" err), w'')
      | (inr ref, w'') => (inr (chunkRefs ++ [ref], data), w'')
      end
  end.

End WithWriter.
End wutil.

(** A store is a blob writer. *)
#[export] Instance Store_BlobWriter {St : Type} `{!store.Store St}
    : wutil.BlobWriter St := {| wutil.Write := store.Write |}.

(** ** Reading a reference tree back *)
Module reader.
Import fixity.

Section WithStore.
Context {St : Type} `{!store.Store St} `{!json.Json}.

Definition readParts (s : St) (h : Ref) : result PartsSchema :=
  match store.Read s h with
  | inl err => inl err
  | inr b => json.UnmarshalParts b
  end.

Definition readData (s : St) (h : Ref) : result DataSchema :=
  match store.Read s h with
  | inl err => inl err
  | inr b => json.UnmarshalData b
  end.

(** Modelled from the spec: the reader of a reference tree is not in the
    sources ([store.ReadParts] is a stub).  "Reading is the exact inverse:
    start at Data, read embedded refs, follow morePartsRef backward,
    prepending each page, until empty."  [fuel] bounds the number of pages
    followed. *)
Fixpoint followPrepending (fuel : nat) (s : St) (more : option Ref)
    (refs : list Ref) : result (list Ref) :=
  match more with
  | None => inr refs
  | Some h =>
      match fuel with
      | O => inl (New "too many pages")
      | S fuel' =>
          match readParts s h with
          | inl err => inl err
          | inr page => followPrepending fuel' s (MoreParts page) (Parts page ++ refs)
          end
      end
  end.

Definition ReadPrepending (fuel : nat) (s : St) (h : Ref) : result (list Ref) :=
  match readData s h with
  | inl err => inl err
  | inr data =>
      followPrepending fuel s (MoreParts (Data_PartsSchema data))
        (Parts (Data_PartsSchema data))
  end.

End WithStore.
End reader.

(** ** github.com/boltdb/bolt: the database holding the head *)
Module bolt.

Record DB : Type := {
  buckets : gmap string (gmap string string);
  view_err : option string;
  update_err : option string;
}.

End bolt.

(** ** The chunker *)
Module camli.

(** A roller is given by the results its [Roll()] returns, in order; once
    they are used up it returns the zero chunk and [io.EOF]. *)
Definition Roller : Type := list (fixity.Chunk * option error).

Class Camli : Type := {
  DefaultMinRollSize : Z;
  New : string → Z → result Roller;
}.

Definition zeroChunk : fixity.Chunk :=
  {| fixity.ChunkBytes := ""; fixity.Chunk_Size := 0;
     fixity.StartBoundry := 0; fixity.EndBoundry := 0 |}.

End camli.

(** ** package local: the block chain on a store *)
Module local.
Import fixity.

Section WithStore.
Context {St : Type} `{!store.Store St} `{!json.Json} `{!camli.Camli}.

Definition blockMetaBucketKey : string := "blockMeta".
Definition lastBlockKey : string := "lastBlock".

Record Local : Type := {
  db : bolt.DB;
  store : St;
}.

Definition getHead (l : Local) : result string :=
  match bolt.view_err (db l) with
  | Some msg => inl (OSError msg)
  | None =>
      match bolt.buckets (db l) !! blockMetaBucketKey with
      | None => inr ""
      | Some bkt =>
          match bkt !! lastBlockKey with
          | Some hB => inr hB
          | None => inr ""
          end
      end
  end.

Definition setHead (l : Local) (h : string) : option error * bolt.DB :=
  match bolt.update_err (db l) with
  | Some msg => (Some (OSError msg), db l)
  | None =>
      let bkt := default ∅ (bolt.buckets (db l) !! blockMetaBucketKey) in
      (None, {| bolt.buckets :=
                  <[blockMetaBucketKey := <[lastBlockKey := h]> bkt]> (bolt.buckets (db l));
                bolt.view_err := bolt.view_err (db l);
                bolt.update_err := bolt.update_err (db l) |})
  end.

(** [MarshalAndWrite(s, v)]; [s] and [v] are values, never nil. *)
Definition MarshalAndWrite (s : St) (v : json.value) : result string * St :=
  match json.Marshal v with
  | inl err => (inl (Stacked err), s)
  | inr b =>
      match store.Write s b with
      | (inl err, s') => (inl (Stacked err), s')
      | (inr h, s') => (inr h, s')
      end
  end.

Definition ReadAll (s : St) (h : string) : result string :=
  match store.Read s h with
  | inl err => inl (Stacked err)
  | inr rc => inr rc
  end.

(** [ReadAndUnmarshalWithBytes(s, h, v)] for [v] a pointer to a Block. *)
Definition ReadAndUnmarshalWithBytes (s : St) (h : string)
    : result (string * Block) :=
  match ReadAll s h with
  | inl err => inl (Stacked err)
  | inr b =>
      match json.UnmarshalBlock b with
      | inl err => inl (Stacked err)
      | inr v => inr (b, v)
      end
  end.

Definition ReadAndUnmarshal (s : St) (h : string) : result Block :=
  match ReadAndUnmarshalWithBytes s h with
  | inl err => inl err
  | inr (_, v) => inr v
  end.

(** The loop of [WriteRoller], on the results of [r.Roll()]. *)
Fixpoint rollAll (s : St) (r : camli.Roller) (totalSize : Z) (hashes : list string)
    : result (list string * Z) * St :=
  match r with
  | [] => (inr (hashes, wrap64 (totalSize + Chunk_Size camli.zeroChunk)), s)
  | (c, err) :: r' =>
      match err with
      | Some EOF => (inr (hashes, wrap64 (totalSize + Chunk_Size c)), s)
      | Some e => (inl e, s)
      | None =>
          let totalSize := wrap64 (totalSize + Chunk_Size c) in
          match MarshalAndWrite s (json.VChunk c) with
          | (inl e, s') => (inl e, s')
          | (inr h, s') => rollAll s' r' totalSize (hashes ++ [h])
          end
      end
  end.

Definition WriteRoller (s : St) (r : camli.Roller) : result (list string * Z) * St :=
  rollAll s r 0 [].

Definition withStore (l : Local) (s : St) : Local := {| db := db l; store := s |}.

Definition Write (l : Local) (id : string) (r : option string)
    (f : list (string * string)) : result (list string) * Local :=
  match r with
  | None => (inl (New "no data given to write"), l)
  | Some rd =>
  let hashes := [] in
  let rollSize := camli.DefaultMinRollSize in
  match camli.New rd rollSize with
  | inl err => (inl err, l)
  | inr roller =>
  match WriteRoller (store l) roller with
  | (inl err, s1) => (inl err, withStore l s1)
  | (inr (cHashes, totalSize), s1) =>
  let hashes := hashes ++ cHashes in
  let blob := {| ChunkHashes := cHashes; Blob_Size := totalSize; RollSize := rollSize |} in
  match MarshalAndWrite s1 (json.VBlob blob) with
  | (inl err, s2) => (inl err, withStore l s2)
  | (inr blobHash, s2) =>
  let hashes := hashes ++ [blobHash] in
  match getHead l with
  | inl err => (inl err, withStore l s2)
  | inr previousBlockHash =>
  let content := {| Id := id; PreviousContentHash := ""; BlobHash := blobHash;
                    IndexedFields := f; Content_Hash := ""; Index := 0;
                    Content_Store := false |} in
  match MarshalAndWrite s2 (json.VContent content) with
  | (inl err, s3) => (inl err, withStore l s3)
  | (inr cHash, s3) =>
  let hashes := hashes ++ [cHash] in
  (* Get the previous block hash and count *)
  match (if decide (previousBlockHash ≠ "")
         then match ReadAndUnmarshal s3 previousBlockHash with
              | inl err => inl err
              | inr prevBlock => inr (BlockNum prevBlock)
              end
         else inr 0) with
  | inl err => (inl err, withStore l s3)
  | inr lastBlock =>
  let block := {| (* zero value is okay for both of these. *)
                  BlockNum := wrap64 (lastBlock + 1);
                  PreviousBlockHash := previousBlockHash;
                  ContentHash := cHash;
                  Block_Hash := ""; Block_Store := false |} in
  match MarshalAndWrite s3 (json.VBlock block) with
  | (inl err, s4) => (inl err, withStore l s4)
  | (inr bHash, s4) =>
  let hashes := hashes ++ [bHash] in
  (* set the head block so we can iterate next time *)
  match setHead l bHash with
  | (Some err, db') => (inl err, {| db := db'; store := s4 |})
  | (None, db') => (inr hashes, {| db := db'; store := s4 |})
  end end end end end end end end end.

End WithStore.
End local.

(** ** package fixity, continued: following back-references *)
Module history.
Import fixity.

Section WithStore.
Context {St : Type} `{!store.Store St} `{!json.Json}.

(** Modelled from the spec: [readAndUnmarshal] of package fixity is not in
    the sources.  A back-reference is "an on-demand Ref lookup through
    Store": the bytes stored under the hash are read and decoded, as
    [ReadAndUnmarshal] of package local does, and a failure of either step
    comes back wrapped. *)
Definition readAndUnmarshal {A : Type} (unmarshal : string → result A)
    (s : St) (h : string) : result A :=
  match store.Read s h with
  | inl err => inl (Stacked err)
  | inr b =>
      match unmarshal b with
      | inl err => inl (Stacked err)
      | inr v => inr v
      end
  end.

(** [func (b *Block) Previous() (Block, error)]; [s] is the store that
    [b.Store] refers to when it is set. *)
Definition Block_Previous (s : St) (b : Block) : result Block :=
  if decide (PreviousBlockHash b = "") then inl ErrNoPrev
  else if negb (Block_Store b) then inl (New "block: Store not set")
  else
    match readAndUnmarshal json.UnmarshalBlock s (PreviousBlockHash b) with
    | inl err => inl err
    | inr previousBlock =>
        inr {| BlockNum := BlockNum previousBlock;
               PreviousBlockHash := PreviousBlockHash previousBlock;
               ContentHash := ContentHash previousBlock;
               Block_Hash := PreviousBlockHash b;
               Block_Store := Block_Store b |}
    end.

(** [func (c *Content) Previous() (Content, error)] *)
Definition Content_Previous (s : St) (c : Content) : result Content :=
  if decide (PreviousContentHash c = "") then inl ErrNoPrev
  else if negb (Content_Store c) then inl (New "content: Store not set")
  else
    match readAndUnmarshal json.UnmarshalContent s (PreviousContentHash c) with
    | inl err => inl err
    | inr pc =>
        inr {| Id := Id pc;
               PreviousContentHash := PreviousContentHash pc;
               BlobHash := BlobHash pc;
               IndexedFields := IndexedFields pc;
               Content_Hash := PreviousContentHash c;
               Index := if decide (Index c ≠ 0) then wrap64 (Index c + 1) else Index pc;
               Content_Store := Content_Store c |}
    end.

(** Modelled from the spec: [Blockchain().Head()] is not in the sources.
    "Head() fails with EmptyChain if nothing was ever appended"; otherwise it
    is the Block stored under the head hash, with its hash and store set. *)
Definition Head `{!camli.Camli} (l : local.Local) : result Block :=
  match local.getHead l with
  | inl err => inl err
  | inr h =>
      if decide (h = "") then inl ErrEmptyBlockchain
      else
        match readAndUnmarshal json.UnmarshalBlock (local.store l) h with
        | inl err => inl err
        | inr b =>
            inr {| BlockNum := BlockNum b;
                   PreviousBlockHash := PreviousBlockHash b;
                   ContentHash := ContentHash b;
                   Block_Hash := h;
                   Block_Store := true |}
        end
  end.

(** Walking back from a block with [Previous] until it reports the end of the
    chain: the blocks visited, first to last.  [None] when a lookup fails or
    the fuel runs out before the end. *)
Fixpoint walk (fuel : nat) (s : St) (b : Block) : option (list Block) :=
  match fuel with
  | O => None
  | S fuel' =>
      match Block_Previous s b with
      | inl ErrNoPrev => Some [b]
      | inl _ => None
      | inr p => option_map (cons b) (walk fuel' s p)
      end
  end.

End WithStore.
End history.

(** ** package q: queries and their textual form *)
Module q.

(** [value.Value]; [value.String(s)] is the only constructor used here. *)
Inductive Value : Type := value_String (s : string).

(** The operators are constants of a package that is not in the sources. *)
Class Operators : Type := {
  operator_Equal : string;
  operator_And : string;
  operator_Or : string;
}.

(** Modelled from the spec: the declarations of Query and Constraint and the
    builders [New], [Const] and [And] are not in the sources.  "A Query is a
    boolean tree of Constraints; a Constraint is {operator, field?, value}." *)
#[warnings="-register-all"]
Inductive Constraint : Type :=
  MkConstraint (Operator : string) (Field : option string) (Value_ : option Value)
               (SubConstraints : list Constraint).

Record Query : Type := {
  Query_Constraint : option Constraint;
  LimitBy : Z;
  SkipBy : Z;
}.

Definition New : Query := {| Query_Constraint := None; LimitBy := 0; SkipBy := 0 |}.

Definition Const (qy : Query) (c : Constraint) : Query :=
  {| Query_Constraint := Some c; LimitBy := LimitBy qy; SkipBy := SkipBy qy |}.

Definition And `{!Operators} (qy : Query) (cs : list Constraint) : Query :=
  {| Query_Constraint := Some (MkConstraint operator_And None None cs);
     LimitBy := LimitBy qy; SkipBy := SkipBy qy |}.

(** [str.ToArgv] is a library: a parameter. *)
Class Str : Type := { ToArgv : string → list string }.

(** ** strings *)

(** [strings.TrimPrefix] with its test: what follows [sep] at the start of
    [s], if [s] starts with [sep]. *)
Fixpoint cutPrefix (sep s : string) : option string :=
  match sep with
  | EmptyString => Some s
  | String a sep' =>
      match s with
      | EmptyString => None
      | String b s' => if decide (a = b) then cutPrefix sep' s' else None
      end
  end.

(** [strings.Cut]: the first occurrence of [sep] in [s], as what is before
    it and what is after it. *)
Fixpoint cut (sep s : string) : option (string * string) :=
  match cutPrefix sep s with
  | Some after => Some ("", after)
  | None =>
      match s with
      | EmptyString => None
      | String c s' =>
          match cut sep s' with
          | Some (before, after) => Some (String c before, after)
          | None => None
          end
      end
  end.

(** [strings.SplitN(s, sep, n)] for a non-empty [sep]; [n] counts the pieces
    still allowed ([n = 0] gives nil). *)
Fixpoint SplitN (s sep : string) (n : nat) : list string :=
  match n with
  | O => []
  | S O => [s]
  | S n' =>
      match cut sep s with
      | None => [s]
      | Some (before, after) => before :: SplitN after sep n'
      end
  end.

(** [strings.Join(a, sep)] *)
Fixpoint Join (a : list string) (sep : string) : string :=
  match a with
  | [] => ""
  | [x] => x
  | x :: rest => x +:+ sep +:+ Join rest sep
  end.

Definition splitPart (s : string) : string * string * string :=
  let constStrs := SplitN s ":" 3 in
  match constStrs with
  | [value] =>
      (* "value" *)
      ("", "", value)
  | [field; value] =>
      (* "field:value" *)
      ("", field, value)
  | op :: field :: value :: _ =>
      (* "op:field:value" *)
      (op, field, value)
  | [] => ("", "", "") (* SplitN with n = 3 returns at least one piece *)
  end.

Section FromString.
Context `{!Operators} `{!Str}.

(** The body of the loop over the parts: the state is [(fieldless, cs)]. *)
Definition step (st : list string * list Constraint) (p : string)
    : list string * list Constraint :=
  let '(fieldless, cs) := st in
  let '(op, field, valueStr) := splitPart p in
  if decide (op = "" ∧ field = "") then (fieldless ++ [valueStr], cs)
  else
    let op :=
      if decide (op = "eq") then operator_Equal
      else if decide (op = "") then operator_Equal
      else op in
    let v := value_String valueStr in
    (fieldless, cs ++ [MkConstraint op (Some field) (Some v) []]).

Definition FromString (s : string) : Query :=
  let parts := ToArgv s in
  let '(fieldless, cs) := fold_left step parts ([], []) in
  let cs :=
    if decide (len fieldless ≠ 0)
    then
      let v := value_String (Join fieldless " ") in
      cs ++ [MkConstraint operator_Equal None (Some v) []]
    else cs in
  match cs with
  | [c] => Const New c
  | _ => And New cs
  end.

End FromString.
End q.

(** ** Panics *)

(** A Go call either returns or panics. *)
Inductive run (A : Type) : Type :=
| Done (a : A)
| Panic (msg : string).
Arguments Done {A} a.
Arguments Panic {A} msg.

(** ** strconv *)
Module strconv.

Definition digitValue (c : ascii) : option Z :=
  let n := Z.of_N (N_of_ascii c) in
  if (48 <=? n) && (n <=? 57) then Some (n - 48) else None.

(** The digits of an unsigned decimal number, most significant first. *)
Fixpoint digits (s : string) (acc : Z) : option Z :=
  match s with
  | EmptyString => Some acc
  | String c s' =>
      match digitValue c with
      | Some d => digits s' (10 * acc + d)
      | None => None
      end
  end.

(** [strconv.Atoi(s)]: an optional sign and decimal digits, in the range of
    a 64-bit [int]. *)
Definition Atoi (s : string) : result Z :=
  let '(neg, ds) :=
    match s with
    | String "-" rest => (true, rest)
    | String "+" rest => (false, rest)
    | _ => (false, s)
    end in
  match ds with
  | EmptyString => inl ErrSyntax
  | _ =>
      match digits ds 0 with
      | None => inl ErrSyntax
      | Some n =>
          if neg then (if n <=? 2 ^ 63 then inr (- n) else inl ErrRange)
          else (if n <? 2 ^ 63 then inr n else inl ErrRange)
      end
  end.

End strconv.

(** ** package dbindex: the index kept in the database *)
Module dbindex.

(** The database interface, as far as the index uses it. *)
Class Database (D : Type) : Type := {
  GetNodeId : D → result string;
  GetIndexEntry : D → Z → result string;
}.

Section WithDatabase.
Context {D : Type} `{!Database D}.

(** The loop [for ; i < q.Limit; i++] of [Query]: [n] iterations remain.
    The result is the final [i] and the entries. *)
Fixpoint fetch (db : D) (fromEntry : Z) (n : nat) (i : Z) (indexEntries : list string)
    : result (Z * list string) :=
  match n with
  | O => inr (i, indexEntries)
  | S n' =>
      match GetIndexEntry db (wrap64 (fromEntry + i)) with
      | inl ErrNoRecord => inr (i, indexEntries)
      | inl err => inl (Wrapped err "failed to get entry from db")
      | inr h => fetch db fromEntry n' (i + 1) (<[Z.to_nat i := h]> indexEntries)
      end
  end.

Definition Query (dbi : D) (q : index.Query) : run (result index.Results) :=
  match GetNodeId dbi with
  | inl err => Done (inl (Wrapped err "failed to get index version (nodeid)"))
  | inr indexVersion =>
      if decide (index.IndexVersion q ≠ "" ∧ indexVersion ≠ index.IndexVersion q)
      then Done (inl ErrIndexVersionsDoNotMatch)
      else if decide (index.Limit q = 0) then Done (inl ErrNoQueryResults)
      else if decide (index.FromEntry q ≠ 0) then
        if index.Limit q <? 0 then Panic "makeslice: len out of range"
        else
          let indexEntries := replicate (Z.to_nat (index.Limit q)) "" in
          match fetch dbi (index.FromEntry q) (Z.to_nat (index.Limit q)) 0 indexEntries with
          | inl err => Done (inl err)
          | inr (i, indexEntries) =>
              Done (inr {| index.Results_IndexVersion := indexVersion;
                           (* trim the slice to the last actual index we got
                              from the db. *)
                           index.Hashes := slice indexEntries 0 i |})
          end
      else Done (inl ErrNoQueryResults)
  end.

Definition QueryOne (dbi : D) (q : index.Query) : run (result index.Result) :=
  let q := {| index.FromEntry := index.FromEntry q; index.Limit := 1;
              index.IndexVersion := index.IndexVersion q |} in
  match Query dbi q with
  | Panic msg => Panic msg
  | Done (inl err) => Done (inl err)
  | Done (inr results) =>
      (* technically Query() should have returned ErrNoQueryResults and been
         returned above, so there should always be at least one hash.
         Nevertheless, prevent a slice bounds panic. *)
      let h := if 0 <? len (index.Hashes results)
               then default "" (index.Hashes results !! 0%nat) else "" in
      Done (inr {| index.Result_IndexVersion := index.Results_IndexVersion results;
                   index.Hash := h |})
  end.

End WithDatabase.
End dbindex.

(** ** net/http *)
Module http.

Definition StatusNotFound : Z := 404.
Definition StatusForbidden : Z := 403.
Definition StatusBadRequest : Z := 400.
Definition StatusInternalServerError : Z := 500.
Definition StatusOK : Z := 200.

Definition StatusText (code : Z) : string :=
  if code =? 404 then "Not Found" else "".

(** A response under construction: the status once the header is written,
    the body so far, and whether writing to the client fails. *)
Record ResponseWriter : Type := {
  status : option Z;
  body : string;
  broken : bool;
}.

Definition NewRecorder (broken : bool) : ResponseWriter :=
  {| status := None; body := ""; broken := broken |}.

(** The header is written once; later calls are ignored. *)
Definition WriteHeader (w : ResponseWriter) (code : Z) : ResponseWriter :=
  match status w with
  | Some _ => w
  | None => {| status := Some code; body := body w; broken := broken w |}
  end.

Definition Write (w : ResponseWriter) (b : string) : option error * ResponseWriter :=
  let w := WriteHeader w StatusOK in
  if broken w then (Some (OSError "write: broken pipe"), w)
  else (None, {| status := status w; body := body w +:+ b; broken := broken w |}).

Definition newline : string := String "010"%char EmptyString.

(** [http.Error(w, msg, code)] *)
Definition Error (w : ResponseWriter) (msg : string) (code : Z) : ResponseWriter :=
  snd (Write (WriteHeader w code) (msg +:+ newline)).

(** [io.Copy(w, r)]: nothing is written for an empty source. *)
Definition Copy (w : ResponseWriter) (r : string) : option error * ResponseWriter :=
  if decide (r = "") then (None, w) else Write w r.

(** The status the client receives: 200 when the handler wrote no header. *)
Definition Code (w : ResponseWriter) : Z := default StatusOK (status w).

(** A request: the [hash] parameter of the route, the body, and the query
    parameters in the order the handler's [range] visits them; the values
    of a parameter are never empty. *)
Record Request : Type := {
  URLParam_hash : string;
  Body : string;
  URLQuery : list (string * (string * list string));
}.

End http.

(** ** package node: the HTTP handlers *)
Module node.

(** [index.Index], as far as the handlers use it. *)
Class Index (I : Type) : Type := {
  Query : I → index.Query → run (result index.Results);
}.

Section WithBackends.
Context {St I : Type} `{!store.Store St} `{!Index I} `{!json.Json}.

Record Node : Type := {
  index_ : I;
  store_ : St;
}.

Definition HeadBlobHandler (n : Node) (w : http.ResponseWriter) (r : http.Request)
    : http.ResponseWriter :=
  let hash := http.URLParam_hash r in
  match store.Exists (store_ n) hash with
  | inl err => http.Error w "store Exists failed" http.StatusInternalServerError
  | inr exists_ =>
      (* If it does not exist, return 404. *)
      if negb exists_
      then http.Error w (http.StatusText http.StatusNotFound) http.StatusNotFound
      else w (* return 200 if it exists. *)
  end.

Definition GetBlobHandler (n : Node) (w : http.ResponseWriter) (r : http.Request)
    : http.ResponseWriter :=
  let hash := http.URLParam_hash r in
  match store.Read (store_ n) hash with
  | inl HashNotFoundErr =>
      http.Error w (http.StatusText http.StatusNotFound) http.StatusNotFound
  | inl _ => http.Error w "store Read failed" http.StatusInternalServerError
  | inr rc =>
      match http.Copy w rc with
      | (Some _, w') => http.Error w' "response write failed" http.StatusInternalServerError
      | (None, w') => w'
      end
  end.

Definition PutBlobHandler (n : Node) (w : http.ResponseWriter) (r : http.Request)
    : http.ResponseWriter * Node :=
  let hash := http.URLParam_hash r in
  let '(err, s') := store.WriteHashReader (store_ n) hash (http.Body r) in
  let n' := {| index_ := index_ n; store_ := s' |} in
  match err with
  | Some HashNotMatchContentErr =>
      (http.Error w "content does not match hash" http.StatusForbidden, n')
  | Some _ => (http.Error w "store write failed" http.StatusInternalServerError, n')
  | None => (w, n')
  end.

(** The loop over the query parameters of [GetQueryHandler]: the query
    built, or the response of the early return. *)
Fixpoint queryParams (w : http.ResponseWriter)
    (params : list (string * (string * list string))) (q : index.Query)
    : http.ResponseWriter + index.Query :=
  match params with
  | [] => inr q
  | (k, (v0, _)) :: rest =>
      if decide (k = "fromEntry") then
        match strconv.Atoi v0 with
        | inl err => inl (http.Error w "fromEntry must be integer" http.StatusInternalServerError)
        | inr i => queryParams w rest {| index.FromEntry := i; index.Limit := index.Limit q;
                                         index.IndexVersion := index.IndexVersion q |}
        end
      else if decide (k = "limit") then
        match strconv.Atoi v0 with
        | inl err => inl (http.Error w "limit must be integer" http.StatusInternalServerError)
        | inr i => queryParams w rest {| index.FromEntry := index.FromEntry q; index.Limit := i;
                                         index.IndexVersion := index.IndexVersion q |}
        end
      else if decide (k = "indexVersion") then
        queryParams w rest {| index.FromEntry := index.FromEntry q; index.Limit := index.Limit q;
                              index.IndexVersion := v0 |}
      else
        inl (http.Error w ("invalid query param " +:+ k) http.StatusInternalServerError)
  end.

Definition GetQueryHandler (n : Node) (w : http.ResponseWriter) (r : http.Request)
    : run http.ResponseWriter :=
  let q := {| index.FromEntry := 0;
              (* default limit of 5 *)
              index.Limit := 5;
              index.IndexVersion := "" |} in
  match queryParams w (http.URLQuery r) q with
  | inl w' => Done w'
  | inr q =>
      match Query (index_ n) q with
      | Panic msg => Panic msg
      | Done (inl ErrNoQueryResults) =>
          Done (http.Error w (http.StatusText http.StatusNotFound) http.StatusNotFound)
      | Done (inl ErrIndexVersionsDoNotMatch) =>
          Done (http.Error w "index Versions do not match" http.StatusInternalServerError)
      | Done (inl _) =>
          Done (http.Error w "index Query failed" http.StatusInternalServerError)
      | Done (inr result) =>
          match json.Marshal (json.VResults result) with
          | inl err => Done (http.Error w "index Query failed" http.StatusInternalServerError)
          | inr b => Done (snd (http.Copy w b))
          end
      end
  end.

End WithBackends.
End node.

#[export] Instance Dbindex_Index {D : Type} `{!dbindex.Database D} : node.Index D :=
  {| node.Query := dbindex.Query |}.

(** ** The layout of a reference tree, stated on its own *)
Module layout.
Import fixity.

Section WithWriter.
Context {W : Type} `{!wutil.BlobWriter W} `{!json.Json}.

(** [written w l w']: marshalling and writing the values of [l] one after
    the other takes the writer from [w] to [w'] and returns the refs paired
    with them. *)
Inductive written : W → list (json.value * Ref) → W → Prop :=
| written_nil (w : W) : written w [] w
| written_cons (w w' w'' : W) (v : json.value) (r : Ref) (l : list (json.value * Ref)) :
    wutil.MarshalAndWrite w v = (inr r, w') →
    written w' l w'' →
    written w ((v, r) :: l) w''.

End WithWriter.

(** The links of the pages in the order they are written: the first has the
    link [prev], each other one the ref of the page written just before it,
    and [final] is the link to the page written last. *)
Fixpoint linked (prev : option Ref) (pages : list (PartsSchema * Ref))
    (final : option Ref) : Prop :=
  match pages with
  | [] => final = prev
  | (p, r) :: rest => MoreParts p = prev ∧ linked (Some r) rest final
  end.

(** The pages as the values handed to the writer. *)
Definition asValues (pages : list (PartsSchema * Ref)) : list (json.value * Ref) :=
  map (λ pr, (json.VParts pr.1, pr.2)) pages.

(** What the loop of [WriteData] puts in page [j], and the pages of the
    iterations [i], [i-1], ..., 1 in that order. *)
Definition pageAt (refs : list Ref) (m j : Z) : list Ref :=
  slice refs (100 * j)
    (if j =? m then 100 * j + Z.rem (len refs) 100 else 100 * j + 100).

Fixpoint planned (refs : list Ref) (m : Z) (i : nat) : list (list Ref) :=
  match i with
  | O => []
  | S i' => pageAt refs m (Z.of_nat i) :: planned refs m i'
  end.

(** ceil(n / pageSize) *)
Definition pageCount (n : nat) : nat := (n + 99) / 100.

(** The refs cut into pages of [pageSize], oldest first; only the last page
    can be partial. *)
Definition pagesOf (refs : list Ref) : list (list Ref) :=
  map (λ j, take 100 (drop (100 * j) refs)) (seq 0 (pageCount (length refs))).

(** The layout as the specification words it: at most [pageSize] refs per
    page, ceil(refCount / pageSize) pages counting the Data node's list, a
    partial page only when it is the sole page, and the Data node holding the
    last page of refs.  [pages] are the Parts pages in the order written. *)
Definition asSpecified (refs : list Ref) (pages : list PartsSchema)
    (data : DataSchema) : Prop :=
  Forall (λ p, (length (Parts p) ≤ 100)%nat) (Data_PartsSchema data :: pages) ∧
  (length pages + 1)%nat = pageCount (length refs) ∧
  (Exists (λ p, (length (Parts p) < 100)%nat) (Data_PartsSchema data :: pages) →
   pages = []) ∧
  Some (Parts (Data_PartsSchema data)) = last (pagesOf refs).

End layout.

(** ** What a disk store holds *)
Module holds.

(** The store has the bytes [b] under the hash [h]. *)
Definition stored (s : disk.Disk) (h b : string) : Prop :=
  os.files (disk.fs s) !! filepath.Join (disk.path s) h = Some b.

(** No file of the store fails to open. *)
Definition readable (s : disk.Disk) : Prop := os.open_err (disk.fs s) = ∅.

End holds.

(** ** The textual query, stated on its own *)
Module qspec.
Import q.

(** [contains c s]: the byte [c] occurs in [s]. *)
Fixpoint contains (c : ascii) (s : string) : bool :=
  match s with
  | EmptyString => false
  | String a s' => if decide (c = a) then true else contains c s'
  end.

Definition noColon (s : string) : Prop := contains ":" s = false.

(** The operator named in a constraint or below it. *)
Fixpoint uses (op : string) (c : Constraint) : bool :=
  match c with
  | MkConstraint o _ _ subs =>
      if decide (o = op) then true
      else (fix any (l : list Constraint) : bool :=
              match l with
              | [] => false
              | x :: l' => if uses op x then true else any l'
              end) subs
  end.

Section WithParameters.
Context `{!Operators} `{!Str}.

(** A token is fieldless when it has neither operator nor field. *)
Definition fieldless (p : string) : bool :=
  bool_decide ((splitPart p).1.1 = "" ∧ (splitPart p).1.2 = "").

Definition valueOf (p : string) : string := (splitPart p).2.

(** The constraint of a token that has a field: the operator is Equal when
    none is given or when it is spelled [eq], otherwise the token's. *)
Definition constraintOf (p : string) : Constraint :=
  let '(op, field, v) := splitPart p in
  MkConstraint (if bool_decide (op = "eq" ∨ op = "") then operator_Equal else op)
    (Some field) (Some (value_String v)) [].

Definition freeText (values : list string) : list Constraint :=
  match values with
  | [] => []
  | _ => [MkConstraint operator_Equal None (Some (value_String (Join values " "))) []]
  end.

(** The query of the input, as the code builds it: the constraints of the
    tokens with a field, in order, then the free-text constraint if there
    are fieldless tokens; one constraint alone is the query's constraint,
    otherwise they are under one And. *)
Definition parsed (s : string) : Query :=
  let parts := ToArgv s in
  let cs := map constraintOf (filter (λ p, fieldless p = false) parts)
            ++ freeText (map valueOf (filter (λ p, fieldless p = true) parts)) in
  match cs with
  | [c] => Const New c
  | _ => And New cs
  end.

(** The query as the specification words it: the constraints of the tokens
    under And, and the free-text constraint, if any, joined to them by Or. *)
Definition asSpecified (s : string) : Query :=
  let parts := ToArgv s in
  let fielded := MkConstraint operator_And None None
                   (map constraintOf (filter (λ p, fieldless p = false) parts)) in
  match freeText (map valueOf (filter (λ p, fieldless p = true) parts)) with
  | [] => {| Query_Constraint := Some fielded; LimitBy := 0; SkipBy := 0 |}
  | free :: _ =>
      {| Query_Constraint := Some (MkConstraint operator_Or None None [fielded; free]);
         LimitBy := 0; SkipBy := 0 |}
  end.

End WithParameters.
End qspec.

(** ** The requests of the query endpoint, stated on their own *)
Module nodespec.

(** A query parameter the handler refuses: [fromEntry] or [limit] with a
    value that is not an integer, or a name it does not know. *)
Definition invalidParam (kv : string * (string * list string)) : Prop :=
  let '(k, (v0, _)) := kv in
  ((k = "fromEntry" ∨ k = "limit") ∧ ∃ err, strconv.Atoi v0 = inl err) ∨
  (k ≠ "fromEntry" ∧ k ≠ "limit" ∧ k ≠ "indexVersion").

(** The query the handler starts from. *)
Definition defaultQuery : index.Query :=
  {| index.FromEntry := 0; index.Limit := 5; index.IndexVersion := "" |}.

End nodespec.

(** ** Runs of appends and the chain they leave *)
Module chain.

Section WithParameters.
Context `{!Blake2b} `{!json.Json} `{!camli.Camli}.

(** One call of [Local.Write]: its arguments. *)
Record request : Type := {
  id : string;
  reader : option string;
  fields : list (string * string);
}.

(** The requests served one after the other, each successfully. *)
Fixpoint appendAll (l : @local.Local disk.Disk) (reqs : list request)
    : option (@local.Local disk.Disk) :=
  match reqs with
  | [] => Some l
  | r :: rest =>
      match local.Write l (id r) (reader r) (fields r) with
      | (inr _, l') => appendAll l' rest
      | (inl _, _) => None
      end
  end.

(** [chainTo s h k]: in the store [s] the hash [h] heads a chain of [k]
    blocks numbered [k] down to 1, each stored under the hash of its
    encoding and naming the next by [PreviousBlockHash]; the chain of no
    block is the empty hash. *)
Fixpoint chainTo (s : disk.Disk) (h : string) (k : nat) : Prop :=
  match k with
  | O => h = ""
  | S k' =>
      ∃ (blk : fixity.Block) (bytes : string),
        h = disk.Hash bytes ∧
        json.Marshal (json.VBlock blk) = inr bytes ∧
        holds.stored s h bytes ∧
        fixity.BlockNum blk = Z.of_nat k ∧
        chainTo s (fixity.PreviousBlockHash blk) k'
  end.

(** What a successful write keeps: the blobs stored under their hash, and
    the files that open. *)
Definition keeps (s s' : disk.Disk) : Prop :=
  (∀ b0, holds.stored s (disk.Hash b0) b0 → holds.stored s' (disk.Hash b0) b0) ∧
  (holds.readable s → holds.readable s').

End WithParameters.

(** The numbers [k], [k-1], ..., 1. *)
Definition countdown (k : nat) : list Z := map Z.of_nat (rev (seq 1 k)).

End chain.

(** ** package wutil, continued: the chunk writer *)
Module chunk.

(** [chunk.Chunk], as far as [WriteChunks] uses it. *)
Record Chunk : Type := {
  Bytes : string;
  Size : Z;
}.

(** A chunker is given by the results its [Chunk(ctx)] returns, in order;
    once they are used up it returns the zero chunk and [io.EOF]. *)
Definition Chunker : Type := list (Chunk * option error).

Definition zeroChunk : Chunk := {| Bytes := ""; Size := 0 |}.

End chunk.

Module wchunks.

(** [fixity.Hasher(name)] gives a [hash.Hash] or an error.  A [hash.Hash] is
    given by its digest of all the bytes written to it so far; its [Write]
    never fails. *)
Class Hashers : Type := {
  DefaultMultihashName : string;
  Hasher : string → result (string → string);
}.

Section WithWriter.
Context {W : Type} `{!wutil.BlobWriter W} `{!Hashers}.

(** The loop of [WriteChunks]: [written] is what the hasher was given. *)
Fixpoint chunkAll (w : W) (r : chunk.Chunker) (totalSize : Z) (written : string)
    (hashes : list fixity.Ref) : result (list fixity.Ref * Z * string) * W :=
  match r with
  | [] => (inr (hashes, wrap64 (totalSize + chunk.Size chunk.zeroChunk), written), w)
  | (c, err) :: r' =>
      match err with
      | Some EOF => (inr (hashes, wrap64 (totalSize + chunk.Size c), written), w)
      | Some e => (inl (Errorf "chunk" e), w)
      | None =>
          let totalSize := wrap64 (totalSize + chunk.Size c) in
          let written := written +:+ chunk.Bytes c in
          match wutil.Write w (chunk.Bytes c) with
          | (inl e, w') => (inl (Errorf "blob write" e), w')
          | (inr h, w') => chunkAll w' r' totalSize written (hashes ++ [h])
          end
      end
  end.

Definition WriteChunks (w : W) (r : chunk.Chunker)
    : result (list fixity.Ref * Z * string) * W :=
  match Hasher DefaultMultihashName with
  | inl err => (inl (Errorf "hasher" err), w)
  | inr digest =>
      match chunkAll w r 0 "" [] with
      | (inl err, w') => (inl err, w')
      | (inr (hashes, totalSize, written), w') =>
          let hash := hex.EncodeToString (digest written) in
          (inr (hashes, totalSize, hash), w')
      end
  end.

End WithWriter.

(** The chunks a chunker yields before its first error or end of stream,
    and the chunk that comes with the end of stream. *)
Fixpoint yielded (r : chunk.Chunker) : list chunk.Chunk :=
  match r with
  | (c, None) :: r' => c :: yielded r'
  | _ => []
  end.

Fixpoint atEOF (r : chunk.Chunker) : chunk.Chunk :=
  match r with
  | [] => chunk.zeroChunk
  | (c, Some _) :: _ => c
  | (_, None) :: r' => atEOF r'
  end.

(** The bytes of the chunks, one after the other. *)
Fixpoint stream (cs : list chunk.Chunk) : string :=
  match cs with
  | [] => ""
  | c :: cs' => chunk.Bytes c +:+ stream cs'
  end.

(** The sum of the sizes. *)
Fixpoint sizes (cs : list chunk.Chunk) : Z :=
  match cs with
  | [] => 0
  | c :: cs' => chunk.Size c + sizes cs'
  end.

End wchunks.

(** ** What a roller yields, stated on its own *)
Module rollspec.

Fixpoint yielded (r : camli.Roller) : list fixity.Chunk :=
  match r with
  | (c, None) :: r' => c :: yielded r'
  | _ => []
  end.

Fixpoint atEOF (r : camli.Roller) : fixity.Chunk :=
  match r with
  | [] => camli.zeroChunk
  | (c, Some _) :: _ => c
  | (_, None) :: r' => atEOF r'
  end.

Fixpoint sizes (cs : list fixity.Chunk) : Z :=
  match cs with
  | [] => 0
  | c :: cs' => fixity.Chunk_Size c + sizes cs'
  end.

(** The first error of the roller that is not the end of the stream. *)
Fixpoint failure (r : camli.Roller) : option error :=
  match r with
  | [] => None
  | (_, None) :: r' => failure r'
  | (_, Some EOF) :: _ => None
  | (_, Some e) :: _ => Some e
  end.

End rollspec.

(** ** package main: the blocks command *)
Module cmd.

(** [s[n:]] for [n] within the string. *)
Fixpoint dropBytes (n : nat) (s : string) : string :=
  match n, s with
  | O, _ => s
  | S n', String _ s' => dropBytes n' s'
  | S _, EmptyString => EmptyString
  end.

(** [sumHash(h, doNothing)]: [h[len(h)-8:]] panics when [h] has fewer than
    eight bytes. *)
Definition sumHash (h : string) (doNothing : bool) : run string :=
  if doNothing then Done h
  else if (String.length h <? 8)%nat then Panic "slice bounds out of range"
  else Done (dropBytes (String.length h - 8) h).

Definition blockType (b : fixity.Block) : string :=
  if decide (fixity.ContentHash b ≠ "") then "content" else "unknown".

End cmd.

(** ** package config *)
Module config.

Section WithTypeConfig.
(** [TypeConfig] is declared in a file that is not in the sources. *)
Context {TypeConfig : Type}.

Record Config : Type := {
  BlobstoreConfigs : gmap string TypeConfig;
  IndexConfigs : gmap string TypeConfig;
  StoreConfigs : gmap string TypeConfig;
}.

(** The package variable [configures], threaded explicitly. *)
Definition Configures : Type := list (Config → result Config).

Definition Configure (configures : Configures) (f : Config → result Config)
    : Configures :=
  configures ++ [f].

(** The loop of [NewConfig]. *)
Fixpoint applyAll (fs : Configures) (c : Config) : result Config :=
  match fs with
  | [] => inr c
  | f :: fs' =>
      match f c with
      | inl err => inl err
      | inr c' => applyAll fs' c'
      end
  end.

Definition NewConfig (configures : Configures) : result Config :=
  applyAll configures
    {| BlobstoreConfigs := ∅; IndexConfigs := ∅; StoreConfigs := ∅ |}.

End WithTypeConfig.
End config.

(** ** File names, and values held by a disk store *)
Module pathspec.

Fixpoint hasSeparator (s : string) : bool :=
  match s with
  | EmptyString => false
  | String c s' => if decide (c = "/"%char) then true else hasSeparator s'
  end.

(** A name that is one path component: not empty, neither [.] nor [..], and
    without a separator.  [filepath.Join] has nothing to clean in it. *)
Definition component (name : string) : Prop :=
  name ≠ "" ∧ name ≠ "." ∧ name ≠ ".." ∧ hasSeparator name = false.

End pathspec.

Module contents.

(** The store has the encoding of [v] under [h], and [h] is its hash. *)
Definition holdsValue `{!Blake2b} `{!json.Json} (s : disk.Disk) (h : string)
    (v : json.value) : Prop :=
  ∃ b, json.Marshal v = inr b ∧ h = disk.Hash b ∧ holds.stored s h b.

End contents.

(** ** Test doubles

    Implementations of the parameters for concrete runs: a hash that is the
    bytes themselves, an encoder that writes the fields of a record with
    their lengths, a roller that cuts nothing, a tokenizer for words. *)
Module testutil.

Definition idHash : Blake2b := {| Sum256 := λ b, b |}.

Definition emptyFS : os.FS :=
  {| os.files := ∅; os.stat_err := ∅; os.open_err := ∅; os.write_err := ∅ |}.

Definition emptyDisk : disk.Disk := {| disk.path := "/tmp/kala"; disk.fs := emptyFS |}.

(** Strings with their length in front, in unary. *)
Fixpoint ones (n : nat) : string :=
  match n with
  | O => "0"
  | S n' => String "1" (ones n')
  end.

Definition frame (s : string) : string := ones (String.length s) +:+ s.

Fixpoint readLen (s : string) : option (nat * string) :=
  match s with
  | String "0" rest => Some (O, rest)
  | String "1" rest =>
      match readLen rest with
      | Some (n, rest') => Some (S n, rest')
      | None => None
      end
  | _ => None
  end.

Fixpoint splitAt (n : nat) (s : string) : option (string * string) :=
  match n with
  | O => Some ("", s)
  | S n' =>
      match s with
      | EmptyString => None
      | String c rest =>
          match splitAt n' rest with
          | Some (a, b) => Some (String c a, b)
          | None => None
          end
      end
  end.

Definition unframe (s : string) : option (string * string) :=
  match readLen s with
  | Some (n, rest) => splitAt n rest
  | None => None
  end.

Fixpoint frames (l : list string) : string :=
  match l with
  | [] => ""
  | x :: l' => frame x +:+ frames l'
  end.

Definition frameList (l : list string) : string := ones (length l) +:+ frames l.

Fixpoint unframes (n : nat) (s : string) : option (list string * string) :=
  match n with
  | O => Some ([], s)
  | S n' =>
      match unframe s with
      | Some (x, rest) =>
          match unframes n' rest with
          | Some (xs, rest') => Some (x :: xs, rest')
          | None => None
          end
      | None => None
      end
  end.

Definition unframeList (s : string) : option (list string * string) :=
  match readLen s with
  | Some (n, rest) => unframes n rest
  | None => None
  end.

(** Integers: a sign and the magnitude in unary. *)
Definition encZ (z : Z) : string :=
  String (if z <? 0 then "-"%char else "+"%char) (ones (Z.abs_nat z)).

Definition decZ (s : string) : option (Z * string) :=
  match s with
  | String sign rest =>
      match readLen rest with
      | Some (n, rest') =>
          Some (if decide (sign = "-"%char) then - Z.of_nat n else Z.of_nat n, rest')
      | None => None
      end
  | EmptyString => None
  end.

Definition encType (t : fixity.BlobType) : string :=
  match t with
  | fixity.BlobTypeParts => "p"
  | fixity.BlobTypeData => "d"
  | fixity.BlobTypeValues => "v"
  end.

Definition decType (s : string) : option (fixity.BlobType * string) :=
  match s with
  | String "p" rest => Some (fixity.BlobTypeParts, rest)
  | String "d" rest => Some (fixity.BlobTypeData, rest)
  | String "v" rest => Some (fixity.BlobTypeValues, rest)
  | _ => None
  end.

Definition encParts (p : fixity.PartsSchema) : string :=
  encType (fixity.SchemaType p) +:+
  frameList (option_list (fixity.MoreParts p)) +:+
  frameList (fixity.Parts p).

Definition decParts (s : string) : option (fixity.PartsSchema * string) :=
  match decType s with
  | Some (t, s1) =>
      match unframeList s1 with
      | Some (more, s2) =>
          match unframeList s2 with
          | Some (parts, s3) =>
              Some ({| fixity.SchemaType := t; fixity.Parts := parts;
                       fixity.MoreParts := head more |}, s3)
          | None => None
          end
      | None => None
      end
  | None => None
  end.

Definition encData (d : fixity.DataSchema) : string :=
  encParts (fixity.Data_PartsSchema d) +:+ encZ (fixity.Size d) +:+ fixity.Checksum d.

Definition decData (s : string) : option fixity.DataSchema :=
  match decParts s with
  | Some (p, s1) =>
      match decZ s1 with
      | Some (size, s2) =>
          Some {| fixity.Data_PartsSchema := p; fixity.Size := size; fixity.Checksum := s2 |}
      | None => None
      end
  | None => None
  end.

Definition encBlock (b : fixity.Block) : string :=
  encZ (fixity.BlockNum b) +:+ frame (fixity.PreviousBlockHash b) +:+ fixity.ContentHash b.

Definition decBlock (s : string) : option fixity.Block :=
  match decZ s with
  | Some (n, s1) =>
      match unframe s1 with
      | Some (prev, s2) =>
          Some {| fixity.BlockNum := n; fixity.PreviousBlockHash := prev;
                  fixity.ContentHash := s2; fixity.Block_Hash := "";
                  fixity.Block_Store := false |}
      | None => None
      end
  | None => None
  end.

Fixpoint flatten (l : list (string * string)) : list string :=
  match l with
  | [] => []
  | (k, v) :: l' => k :: v :: flatten l'
  end.

Fixpoint pairUp (l : list string) : list (string * string) :=
  match l with
  | k :: v :: l' => (k, v) :: pairUp l'
  | _ => []
  end.

Definition encContent (c : fixity.Content) : string :=
  frame (fixity.Id c) +:+ frame (fixity.PreviousContentHash c) +:+
  frame (fixity.BlobHash c) +:+ frameList (flatten (fixity.IndexedFields c)).

Definition decContent (s : string) : option fixity.Content :=
  match unframe s with
  | Some (id, s1) =>
      match unframe s1 with
      | Some (prev, s2) =>
          match unframe s2 with
          | Some (blob, s3) =>
              match unframeList s3 with
              | Some (fields, _) =>
                  Some {| fixity.Id := id; fixity.PreviousContentHash := prev;
                          fixity.BlobHash := blob; fixity.IndexedFields := pairUp fields;
                          fixity.Content_Hash := ""; fixity.Index := 0;
                          fixity.Content_Store := false |}
              | None => None
              end
          | None => None
          end
      | None => None
      end
  | None => None
  end.

Definition marshal (v : json.value) : string :=
  match v with
  | json.VParts p => encParts p
  | json.VData d => encData d
  | json.VChunk c => "c" +:+ fixity.ChunkBytes c
  | json.VBlob b =>
      "b" +:+ frameList (fixity.ChunkHashes b) +:+ encZ (fixity.Blob_Size b) +:+
      encZ (fixity.RollSize b)
  | json.VContent c => encContent c
  | json.VBlock b => encBlock b
  | json.VResults r =>
      frame (index.Results_IndexVersion r) +:+ frameList (index.Hashes r)
  end.

Definition orSyntaxError {A : Type} (o : option A) : result A :=
  match o with
  | Some a => inr a
  | None => inl (New "unexpected end of JSON input")
  end.

Definition framedJson : json.Json :=
  {| json.Marshal := λ v, inr (marshal v);
     json.UnmarshalParts := λ b, orSyntaxError (option_map fst (decParts b));
     json.UnmarshalData := λ b, orSyntaxError (decData b);
     json.UnmarshalContent := λ b, orSyntaxError (decContent b);
     json.UnmarshalBlock := λ b, orSyntaxError (decBlock b) |}.

(** A roller that yields its input as one chunk. *)
Definition wholeRoller : camli.Camli :=
  {| camli.DefaultMinRollSize := 64;
     camli.New := λ r _,
       inr [({| fixity.ChunkBytes := r; fixity.Chunk_Size := Z.of_nat (String.length r);
                fixity.StartBoundry := 0;
                fixity.EndBoundry := Z.of_nat (String.length r) |}, None)] |}.

(** The refs [c0], [c1], ..., [c(n-1)]. *)
Definition someRefs (n : nat) : list fixity.Ref :=
  map (λ i : nat, "c" +:+ pretty i) (seq 0 n).

Definition diskStore : store.Store disk.Disk := @disk.Disk_Store idHash.

Definition diskWriter : wutil.BlobWriter disk.Disk := @Store_BlobWriter disk.Disk diskStore.

(** Assembling the tree of [n] refs on an empty disk. *)
Definition assemble (n : nat)
    : result (list fixity.Ref * fixity.DataSchema) * disk.Disk :=
  @wutil.WriteData disk.Disk diskWriter framedJson emptyDisk (someRefs n) 7 "sum".

(** The Data node of that tree. *)
Definition assembledData (n : nat) : option fixity.DataSchema :=
  match assemble n with
  | (inr (_, data), _) => Some data
  | _ => None
  end.

(** Assembling the tree of [n] refs and reading it back from the Data
    node. *)
Definition readBack (n : nat) : result (list fixity.Ref) :=
  match assemble n with
  | (inr (out, _), s') =>
      match last out with
      | Some h => @reader.ReadPrepending disk.Disk diskStore framedJson n s' h
      | None => inl (New "no ref")
      end
  | (inl err, _) => inl err
  end.

(** The operators by their usual names, and a tokenizer that cuts at
    spaces. *)
Definition operators : q.Operators :=
  {| q.operator_Equal := "eq"; q.operator_And := "and"; q.operator_Or := "or" |}.

Fixpoint words (s : string) (word : string) : list string :=
  match s with
  | EmptyString => if decide (word = "") then [] else [word]
  | String c s' =>
      if decide (c = " "%char)
      then (if decide (word = "") then words s' "" else word :: words s' "")
      else words s' (word +:+ String c "")
  end.

Definition spaces : q.Str := {| q.ToArgv := λ s, words s "" |}.

(** A database in memory: its node id and its index entries, numbered from
    1. *)
Record memDB : Type := {
  nodeId : string;
  entries : list string;
}.

Definition memDatabase : dbindex.Database memDB :=
  {| dbindex.GetNodeId := λ db, inr (nodeId db);
     dbindex.GetIndexEntry := λ db i,
       if i <? 1 then inl ErrNoRecord
       else match entries db !! Z.to_nat (i - 1) with
            | Some h => inr h
            | None => inl ErrNoRecord
            end |}.

Definition memIndex : node.Index memDB := @Dbindex_Index memDB memDatabase.

Definition noEntries : memDB := {| nodeId := "v1"; entries := [] |}.

Definition twoEntries : memDB := {| nodeId := "v1"; entries := ["h1"; "h2"] |}.

Definition aNode : @node.Node disk.Disk memDB :=
  {| node.index_ := twoEntries; node.store_ := emptyDisk |}.

Definition request (hash body : string) (params : list (string * (string * list string)))
    : http.Request :=
  {| http.URLParam_hash := hash; http.Body := body; http.URLQuery := params |}.

(** The status of the query endpoint for the given parameters. *)
Definition queryStatus (params : list (string * (string * list string))) : run Z :=
  match @node.GetQueryHandler disk.Disk memDB memIndex framedJson aNode
          (http.NewRecorder false) (request "" "" params) with
  | Done w => Done (http.Code w)
  | Panic msg => Panic msg
  end.

(** A fresh local instance on the empty disk, and three requests. *)
Definition emptyLocal : @local.Local disk.Disk :=
  {| local.db := {| bolt.buckets := ∅; bolt.view_err := None; bolt.update_err := None |};
     local.store := emptyDisk |}.

Definition threeRequests : list chain.request :=
  [ {| chain.id := "doc1"; chain.reader := Some "one"; chain.fields := [("field", "foo")] |};
    {| chain.id := "doc2"; chain.reader := Some "two"; chain.fields := [] |};
    {| chain.id := "doc1"; chain.reader := Some "three"; chain.fields := [] |} ].

Definition afterThree : option (@local.Local disk.Disk) :=
  @chain.appendAll idHash framedJson wholeRoller emptyLocal threeRequests.

Definition succeeded {A : Type} (o : option A) : bool :=
  match o with
  | Some _ => true
  | None => false
  end.

(** A first version of a content, and a genesis block. *)
Definition firstContent : fixity.Content :=
  {| fixity.Id := "doc1"; fixity.PreviousContentHash := ""; fixity.BlobHash := "b";
     fixity.IndexedFields := [("field", "foo")]; fixity.Content_Hash := "";
     fixity.Index := 1; fixity.Content_Store := true |}.

Definition genesisBlock : fixity.Block :=
  {| fixity.BlockNum := 1; fixity.PreviousBlockHash := ""; fixity.ContentHash := "c";
     fixity.Block_Hash := ""; fixity.Block_Store := true |}.

(** A roller that yields one chunk and then a last one with the end of the
    stream. *)
Definition aRoller : camli.Roller :=
  [ ({| fixity.ChunkBytes := "one"; fixity.Chunk_Size := 3;
        fixity.StartBoundry := 0; fixity.EndBoundry := 3 |}, None);
    ({| fixity.ChunkBytes := "!"; fixity.Chunk_Size := 1;
        fixity.StartBoundry := 3; fixity.EndBoundry := 4 |}, Some EOF) ].

Definition isOk {A B : Type} (r : result A * B) : bool :=
  match r with
  | (inr _, _) => true
  | (inl _, _) => false
  end.

Definition rolled : result (list string * Z) * disk.Disk :=
  @local.WriteRoller disk.Disk diskStore framedJson emptyDisk aRoller.

Definition oneWrite : result (list string) * @local.Local disk.Disk :=
  @local.Write disk.Disk diskStore framedJson wholeRoller emptyLocal "doc1"
    (Some "one") [("field", "foo")].

(** A store holding the first version of a content, and a second version
    that names it. *)
Definition firstWritten : result string * disk.Disk :=
  @local.MarshalAndWrite disk.Disk diskStore framedJson emptyDisk
    (json.VContent firstContent).

Definition secondContent : fixity.Content :=
  {| fixity.Id := "doc1";
     fixity.PreviousContentHash :=
       match fst firstWritten with
       | inr h => h
       | inl _ => ""
       end;
     fixity.BlobHash := "b2"; fixity.IndexedFields := [];
     fixity.Content_Hash := ""; fixity.Index := 1; fixity.Content_Store := true |}.

Definition previousOfSecond : result fixity.Content :=
  @history.Content_Previous disk.Disk diskStore framedJson (snd firstWritten)
    secondContent.

Definition isValue {A : Type} (r : result A) : bool :=
  match r with
  | inr _ => true
  | inl _ => false
  end.

Definition blockWritten : result string * disk.Disk :=
  @local.MarshalAndWrite disk.Disk diskStore framedJson emptyDisk
    (json.VBlock genesisBlock).

(** A request that puts the bytes [abc] under their hash. *)
Definition putAbc : http.Request :=
  request (@disk.Hash idHash "abc") "abc" [].

(** A hasher whose digest is the bytes written, and a chunker that yields
    two chunks before the end of the stream. *)
Definition hashers : wchunks.Hashers :=
  {| wchunks.DefaultMultihashName := "blake2b-256";
     wchunks.Hasher := λ _, inr (λ b, b) |}.

Definition aChunker : chunk.Chunker :=
  [ ({| chunk.Bytes := "ab"; chunk.Size := 2 |}, None);
    ({| chunk.Bytes := "c"; chunk.Size := 1 |}, None);
    (chunk.zeroChunk, Some EOF) ].

Definition chunksWritten : result (list fixity.Ref * Z * string) * disk.Disk :=
  @wchunks.WriteChunks disk.Disk diskWriter hashers emptyDisk aChunker.

(** The same bytes in one chunk. *)
Definition oneChunk : chunk.Chunker :=
  [ ({| chunk.Bytes := "abc"; chunk.Size := 3 |}, None) ].

Definition oneChunkWritten : result (list fixity.Ref * Z * string) * disk.Disk :=
  @wchunks.WriteChunks disk.Disk diskWriter hashers emptyDisk oneChunk.

(** The instance after one write, with a database that can no longer be
    updated, and a write on it. *)
Definition stuck : @local.Local disk.Disk :=
  {| local.db := {| bolt.buckets := bolt.buckets (local.db (snd oneWrite));
                    bolt.view_err := None;
                    bolt.update_err := Some "read-only" |};
     local.store := local.store (snd oneWrite) |}.

Definition failedWrite : result (list string) * @local.Local disk.Disk :=
  @local.Write disk.Disk diskStore framedJson wholeRoller stuck "doc2" (Some "two") [].

Definition headSet (l : @local.Local disk.Disk) : bool :=
  match local.getHead l with
  | inr h => negb (String.eqb h "")
  | inl _ => false
  end.

End testutil.

(* ================================================================== *)
(** * Properties *)
(* ================================================================== *)

(** ** Hashes *)

Lemma hex_Decode_Encode (s : string) : hex.DecodeString (hex.EncodeToString s) = s.
Proof.
  induction s as [|c s IH]; [reflexivity|].
  cbn [hex.EncodeToString hex.DecodeString]. rewrite IH. f_equal.
  destruct c as [[] [] [] [] [] [] [] []]; reflexivity.
Qed.

Lemma hex_Encode_inj (s t : string) :
  hex.EncodeToString s = hex.EncodeToString t → s = t.
Proof.
  intros E. rewrite <- (hex_Decode_Encode s), <- (hex_Decode_Encode t). by rewrite E.
Qed.

Lemma Hash_inj `{Blake2b} :
  (∀ a b, Sum256 a = Sum256 b → a = b) →
  ∀ a b, disk.Hash a = disk.Hash b → a = b.
Proof.
  intros Hinj a b E. unfold disk.Hash in E.
  apply Hinj, hex_Encode_inj. by simplify_eq/=.
Qed.

Lemma Hash_nonempty `{Blake2b} (b : string) : disk.Hash b ≠ "".
Proof. unfold disk.Hash. discriminate. Qed.

Lemma idHash_inj (a b : string) :
  @disk.Hash testutil.idHash a = @disk.Hash testutil.idHash b → a = b.
Proof. apply (@Hash_inj testutil.idHash). intros ? ? E. exact E. Qed.

(** C3.  [WriteHash(h, b)] succeeds only if [Hash(b) = h]; when they differ
    it returns [HashNotMatchContentErr] and the store is the one it was, so a
    hash that did not exist before the call does not exist after it. *)
Theorem WriteHash_verifies_content `{Blake2b} (s : disk.Disk) (h b : string) :
  (∀ s', disk.WriteHash s h b = (None, s') → disk.Hash b = h) ∧
  (disk.Hash b ≠ h →
     disk.WriteHash s h b = (Some HashNotMatchContentErr, s) ∧
     (disk.Exists s h = inr false →
      disk.Exists (snd (disk.WriteHash s h b)) h = inr false)).
Proof.
  unfold disk.WriteHash. split.
  - intros s' E. destruct (decide (h ≠ disk.Hash b)) as [Hne|Heq].
    + discriminate.
    + by apply dec_stable in Heq.
  - intros Hne. destruct (decide (h ≠ disk.Hash b)) as [_|Heq].
    + split; [reflexivity|]. intros E. exact E.
    + apply dec_stable in Heq. congruence.
Qed.

Lemma WriteHash_verifies_content_witness :
  @disk.WriteHash testutil.idHash testutil.emptyDisk "blake2b256-00" "a"
    = (Some HashNotMatchContentErr, testutil.emptyDisk) ∧
  @disk.Exists testutil.emptyDisk "blake2b256-00" = inr false ∧
  @disk.WriteHash testutil.idHash testutil.emptyDisk "blake2b256-61" "a"
    = (None, snd (@disk.WriteHash testutil.idHash testutil.emptyDisk "blake2b256-61" "a")).
Proof.
  split; [|split].
  - apply (@WriteHash_verifies_content testutil.idHash testutil.emptyDisk
             "blake2b256-00" "a"). vm_compute. discriminate.
  - reflexivity.
  - reflexivity.
Defined.

(** C9.  Two calls of [Write] on the same bytes that succeed return the same
    ref, whatever the states of the store they run in; the ref is the
    algorithm-tagged hash of the bytes alone, and the second of two calls in
    a row leaves the store as the first left it. *)
Theorem Write_same_ref `{Blake2b} (s1 s2 s1' s2' : disk.Disk) (b r1 r2 : string) :
  disk.Write s1 b = (inr r1, s1') →
  disk.Write s2 b = (inr r2, s2') →
  r1 = r2 ∧ r1 = disk.Hash b ∧
  String.prefix "blake2b256-" r1 = true ∧
  (s2 = s1' → s2' = s1').
Proof.
  unfold disk.Write, disk.writeHash, os.WriteFile.
  intros E1 E2.
  destruct (os.write_err (disk.fs s1) !! _) eqn:W1; simpl in E1; [discriminate|].
  destruct (os.write_err (disk.fs s2) !! _) eqn:W2; simpl in E2; [discriminate|].
  simplify_eq/=. split; [done|]. split; [done|].
  split; [by destruct (hex.EncodeToString _)|].
  intros ->. simpl. by rewrite insert_insert_eq.
Qed.

Lemma Write_same_ref_witness :
  let s1 := snd (@disk.Write testutil.idHash testutil.emptyDisk "a") in
  let s2 := snd (@disk.Write testutil.idHash s1 "a") in
  fst (@disk.Write testutil.idHash testutil.emptyDisk "a") = inr "blake2b256-61" ∧
  fst (@disk.Write testutil.idHash s1 "a") = inr "blake2b256-61" ∧
  s2 = s1.
Proof.
  intros s1 s2. split; [reflexivity|]. split; [reflexivity|].
  refine (proj2 (proj2 (proj2
    (@Write_same_ref testutil.idHash testutil.emptyDisk s1 s1 s2 "a"
       "blake2b256-61" "blake2b256-61" _ _))) eq_refl); reflexivity.
Defined.

(** ** The Parts assembler *)

Lemma quot_facts (n : Z) :
  0 ≤ n →
  let m := Z.quot (n - 1) 100 in
  let r := Z.rem n 100 in
  0 ≤ m ∧ 0 ≤ r < 100 ∧
  (n = 0 → m = 0) ∧
  (1 ≤ n → 100 * m ≤ n - 1 < 100 * m + 100) ∧
  (r ≠ 0 → 100 * m + r = n) ∧
  (r = 0 → 1 ≤ n → 100 * m + 100 = n).
Proof.
  intros Hn m r. subst m r.
  destruct (Z.eq_dec n 0) as [->|Hne].
  - change (Z.quot (0 - 1) 100) with 0. change (Z.rem 0 100) with 0. lia.
  - rewrite Z.quot_div_nonneg, Z.rem_mod_nonneg by lia.
    Z.div_mod_to_equations. lia.
Qed.

Lemma slice_app_within {A : Type} (l k : list A) (lo hi : Z) :
  0 ≤ lo → hi ≤ len l → slice (l ++ k) lo hi = slice l lo hi.
Proof.
  unfold slice, len. intros Hlo Hhi.
  destruct (decide (lo ≤ hi)) as [Hle|Hgt].
  - rewrite drop_app_le by lia.
    rewrite take_app_le; [done|]. rewrite length_drop. lia.
  - replace (Z.to_nat (hi - lo)) with 0%nat by lia. done.
Qed.

Lemma slice_length_le {A : Type} (l : list A) (lo hi : Z) :
  (length (slice l lo hi) ≤ Z.to_nat (hi - lo))%nat.
Proof. unfold slice. rewrite length_take. lia. Qed.

Lemma pageAt_length_le (refs : list fixity.Ref) (m j : Z) :
  (length (layout.pageAt refs m j) ≤ 100)%nat.
Proof.
  unfold layout.pageAt. etrans; [apply slice_length_le|].
  destruct (j =? m); [|lia].
  pose proof (Z.rem_bound_pos (len refs) 100). unfold len in *. lia.
Qed.

Lemma planned_length (refs : list fixity.Ref) (m : Z) (i : nat) :
  length (layout.planned refs m i) = i.
Proof. induction i; simpl; congruence. Qed.

Lemma planned_length_le (refs : list fixity.Ref) (m : Z) (i : nat) :
  Forall (λ p, (length p ≤ 100)%nat) (layout.planned refs m i).
Proof.
  induction i; simpl; constructor; [apply pageAt_length_le|done].
Qed.

Lemma planned_rev (refs : list fixity.Ref) (m : Z) (i : nat) :
  rev (layout.planned refs m i)
  = map (λ j : nat, layout.pageAt refs m (Z.of_nat j)) (seq 1 i).
Proof.
  induction i as [|i IH]; [done|].
  cbn [layout.planned rev]. rewrite IH, seq_S, map_app. done.
Qed.

(** Away from the lengths that are a multiple of the page size above one
    page, page [j] of the loop is the [j]-th page of the partition. *)
Lemma pageAt_partition (refs : list fixity.Ref) (j : nat) :
  let n := len refs in
  let m := Z.quot (n - 1) 100 in
  (n ≤ 100 ∨ Z.rem n 100 ≠ 0) →
  (1 ≤ j)%nat → Z.of_nat j ≤ m →
  layout.pageAt refs m (Z.of_nat j) = take 100 (drop (100 * j) refs).
Proof.
  intros n m Hn Hj Hjm. unfold layout.pageAt, slice.
  replace (Z.to_nat (100 * Z.of_nat j)) with (100 * j)%nat by lia.
  assert (Hlen : length (drop (100 * j) refs) = (length refs - 100 * j)%nat)
    by apply length_drop.
  pose proof (quot_facts n ltac:(unfold n, len; lia)) as Hq. cbv zeta in Hq.
  fold m in Hq. unfold n, len in *.
  set (r := Z.rem _ 100) in *. clearbody m r. clear n.
  destruct (Z.eqb_spec (Z.of_nat j) m) as [Heq|Hne].
  - rewrite !take_ge; [done| |]; rewrite Hlen; destruct Hn; lia.
  - f_equal. lia.
Qed.

Section AssemblerFacts.
Context {W : Type} `{!wutil.BlobWriter W} `{!json.Json}.
Import fixity.

Lemma written_app (w w' w'' : W) (l k : list (json.value * Ref)) :
  layout.written w l w' → layout.written w' k w'' → layout.written w (l ++ k) w''.
Proof.
  induction 1 as [|? ? ? ? ? ? E _ IH]; intros Hk; [done|].
  simpl. econstructor; [exact E|]. by apply IH.
Qed.

Lemma writeParts_spec (i : nat) :
  ∀ (w w' : W) (refs extra out : list Ref) (last last' : option Ref),
    let n := len refs in
    let m := Z.quot (n - 1) 100 in
    Z.of_nat i ≤ m →
    wutil.writeParts w i m n (refs ++ extra) last = (inr (out, last'), w') →
    ∃ pages : list (PartsSchema * Ref),
      layout.written w (layout.asValues pages) w' ∧
      out = refs ++ extra ++ map snd pages ∧
      layout.linked last pages last' ∧
      map (λ pr, Parts pr.1) pages = layout.planned refs m i.
Proof.
  induction i as [|i IH]; intros w w' refs extra out last last' n m Hi E.
  - simpl in E. simplify_eq. exists []. simpl.
    split; [constructor|]. by rewrite app_nil_r.
  - cbn [wutil.writeParts] in E.
    destruct (wutil.MarshalAndWrite w _) as [[err|ref] w1] eqn:EW; [discriminate|].
    rewrite <- app_assoc in E.
    apply IH in E as (pages & Hw & -> & Hl & Hp); [|unfold m, n in Hi; lia].
    rewrite slice_app_within in EW.
    2: { unfold wutil.partSize. lia. }
    2: { pose proof (quot_facts n ltac:(unfold n, len; lia)) as Hq. cbv zeta in Hq.
         fold m in Hq. unfold wutil.partSize. fold n.
         assert (0 ≤ n) by (unfold n, len; lia).
         set (r := Z.rem _ 100) in *. clearbody m r n.
         destruct (Z.eqb_spec (Z.of_nat (S i)) m); lia. }
    exists (({| SchemaType := BlobTypeParts;
                Parts := layout.pageAt refs m (Z.of_nat (S i));
                MoreParts := last |}, ref) :: pages).
    split; [|split; [|split]].
    + simpl. econstructor; [exact EW|exact Hw].
    + simpl. by rewrite <- !app_assoc.
    + simpl. done.
    + simpl. by rewrite Hp.
Qed.

Lemma WriteData_inv (w w' : W) (refs out : list Ref) (totalSize : Z)
    (contentHash : string) (data : DataSchema) :
  wutil.WriteData w refs totalSize contentHash = (inr (out, data), w') →
  ∃ (pages : list (PartsSchema * Ref)) (dref : Ref),
    layout.written w (layout.asValues pages ++ [(json.VData data, dref)]) w' ∧
    out = refs ++ map snd pages ++ [dref] ∧
    layout.linked None pages (MoreParts (Data_PartsSchema data)) ∧
    map (λ pr, Parts pr.1) pages
      = layout.planned refs (Z.quot (len refs - 1) 100)
          (Z.to_nat (Z.quot (len refs - 1) 100)) ∧
    Parts (Data_PartsSchema data) = take 100 refs ∧
    Size data = totalSize ∧ Checksum data = contentHash.
Proof.
  unfold wutil.WriteData. intros E.
  destruct (wutil.writeParts w _ _ _ _ _) as [[err|[chunkRefs lastPart]] w1] eqn:EP;
    [discriminate|].
  destruct (wutil.MarshalAndWrite w1 _) as [[err|dref] w2] eqn:ED; [discriminate|].
  pose proof (writeParts_spec (Z.to_nat (Z.quot (len refs - 1) 100))
                w w1 refs [] chunkRefs None lastPart) as HP.
  cbv zeta in HP. rewrite app_nil_r in HP.
  pose proof (quot_facts (len refs) ltac:(unfold len; lia)) as Hq. cbv zeta in Hq.
  destruct (HP ltac:(lia) EP) as (pages & Hw & -> & Hl & Hp).
  assert (Hd : slice (refs ++ [] ++ map snd pages) 0
                 (if len refs <? wutil.partSize then len refs else wutil.partSize)
               = take 100 refs).
  { rewrite slice_app_within; [|lia|].
    - unfold slice. rewrite drop_0. destruct (Z.ltb_spec (len refs) wutil.partSize).
      + rewrite !take_ge; [done| |]; unfold len, wutil.partSize in *; lia.
      + done.
    - unfold wutil.partSize. destruct (Z.ltb_spec (len refs) 100); lia. }
  rewrite Hd in *. simplify_eq.
  exists pages, dref. simpl. split; [|split; [|split; [|split]]]; try done.
  - eapply written_app; [exact Hw|]. econstructor; [exact ED|constructor].
  - by rewrite <- app_assoc.
Qed.

Lemma pageCount_quot (n : nat) :
  (1 ≤ n)%nat →
  (Z.to_nat (Z.quot (Z.of_nat n - 1) 100) + 1)%nat = layout.pageCount n.
Proof.
  intros Hn. unfold layout.pageCount.
  pose proof (quot_facts (Z.of_nat n) ltac:(lia)) as Hq. cbv zeta in Hq.
  set (m := Z.quot _ 100) in *. set (r := Z.rem _ 100) in *. clearbody m r.
  apply (Nat.div_unique _ 100 _ (n + 99 - 100 * (Z.to_nat m + 1))); lia.
Qed.

Lemma rem_of_nat (n : nat) : Z.rem (Z.of_nat n) 100 = Z.of_nat (n mod 100).
Proof. rewrite Z.rem_mod_nonneg by lia. by rewrite Nat2Z.inj_mod. Qed.

(** Away from the slip, the first hundred refs and the pages of the loop,
    last written first, are the partition of the refs. *)
Lemma planned_pagesOf (refs : list Ref) :
  refs ≠ [] →
  (length refs ≤ 100 ∨ length refs mod 100 ≠ 0)%nat →
  take 100 refs ::
    rev (layout.planned refs (Z.quot (len refs - 1) 100)
           (Z.to_nat (Z.quot (len refs - 1) 100)))
  = layout.pagesOf refs.
Proof.
  intros Hne Hmult.
  assert (Hn1 : (1 ≤ length refs)%nat) by (destruct refs; [done|simpl; lia]).
  pose proof (quot_facts (len refs) ltac:(unfold len; lia)) as Hq. cbv zeta in Hq.
  unfold layout.pagesOf. rewrite <- (pageCount_quot _ Hn1).
  rewrite Nat.add_1_r. cbn [seq map]. rewrite Nat.mul_0_r, drop_0. f_equal.
  rewrite planned_rev.
  apply map_ext_in. intros j Hj%in_seq.
  apply (pageAt_partition refs j).
  - unfold len. rewrite (rem_of_nat (length refs)). clear -Hmult.
    destruct Hmult as [Hle|Hnz]; [left; lia|right].
    intros E. apply Hnz. apply Nat2Z.inj. exact E.
  - lia.
  - unfold len in *. lia.
Qed.

(** C1, as the code has it.  [WriteData] writes the Parts pages and then the
    Data node, each page linked to the one written before it and the Data
    node to the last one written.  Every page and the Data node's list hold
    at most [partSize] refs.  For a non-empty list the number of pages,
    counting the Data node's list, is ceil(refCount / partSize); for the
    empty list there is the Data node alone, with an empty list.  When the
    length is at most [partSize] or not a multiple of it, the Data node holds
    the first page of the partition of the refs into pages of [partSize],
    oldest first, and the pages, from the last written to the first, hold the
    following ones: only the last page of the partition can be partial. *)
Theorem WriteData_layout (w w' : W) (refs out : list Ref) (totalSize : Z)
    (contentHash : string) (data : DataSchema) :
  wutil.WriteData w refs totalSize contentHash = (inr (out, data), w') →
  ∃ (pages : list (PartsSchema * Ref)) (dref : Ref),
    layout.written w (layout.asValues pages ++ [(json.VData data, dref)]) w' ∧
    out = refs ++ map snd pages ++ [dref] ∧
    layout.linked None pages (MoreParts (Data_PartsSchema data)) ∧
    Forall (λ p, (length (Parts p) ≤ 100)%nat) (Data_PartsSchema data :: map fst pages) ∧
    Size data = totalSize ∧ Checksum data = contentHash ∧
    (refs = [] → pages = [] ∧ Parts (Data_PartsSchema data) = []) ∧
    (refs ≠ [] → (length pages + 1)%nat = layout.pageCount (length refs)) ∧
    (refs ≠ [] → (length refs ≤ 100 ∨ length refs mod 100 ≠ 0)%nat →
     Parts (Data_PartsSchema data) :: rev (map (λ pr, Parts pr.1) pages)
     = layout.pagesOf refs).
Proof.
  intros (pages & dref & Hw & Hout & Hl & Hp & Hd & Hs & Hc)%WriteData_inv.
  set (n := len refs) in *. set (m := Z.quot (n - 1) 100) in *.
  pose proof (quot_facts n ltac:(unfold n, len; lia)) as Hq. cbv zeta in Hq.
  change (Z.quot (n - 1) 100) with m in Hq.
  assert (Hlen : length pages = Z.to_nat m).
  { rewrite <- (length_map (λ pr : PartsSchema * Ref, Parts pr.1)), Hp.
    apply planned_length. }
  exists pages, dref.
  split; [exact Hw|]. split; [exact Hout|]. split; [exact Hl|].
  split; [|split; [exact Hs|split; [exact Hc|split; [|split]]]].
  - constructor; [rewrite Hd, length_take; lia|].
    apply Forall_map. apply (Forall_map (λ pr : PartsSchema * Ref, Parts pr.1)
                               (λ p, (length p ≤ 100)%nat)).
    rewrite Hp. apply planned_length_le.
  - intros ->. split; [|by rewrite Hd].
    apply length_zero_iff_nil. rewrite Hlen. unfold n, len in *. simpl in *. lia.
  - intros Hne. rewrite Hlen. unfold m, n, len.
    apply pageCount_quot. destruct refs; [done|simpl; lia].
  - intros Hne Hmult. rewrite Hd, Hp. by apply planned_pagesOf.
Qed.

End AssemblerFacts.

Lemma WriteData_layout_witness :
  ∃ (out : list fixity.Ref) (data : fixity.DataSchema) (s' : disk.Disk),
    testutil.assemble 3 = (inr (out, data), s') ∧
    [fixity.Parts (fixity.Data_PartsSchema data)] = [["c0"; "c1"; "c2"]].
Proof.
  destruct (testutil.assemble 3) as [[err|[out data]] s'] eqn:E.
  - exfalso. vm_compute in E. discriminate.
  - exists out, data, s'. split; [reflexivity|].
    destruct (@WriteData_layout disk.Disk testutil.diskWriter testutil.framedJson
                _ _ _ _ _ _ _ E)
      as (pages & dref & _ & _ & _ & _ & _ & _ & _ & Hcount & Hpart).
    specialize (Hcount ltac:(discriminate)).
    specialize (Hpart ltac:(discriminate) ltac:(left; vm_compute; lia)).
    change (layout.pageCount _) with 1%nat in Hcount.
    destruct pages; [|simpl in Hcount; lia].
    exact Hpart.
Defined.

(** C1 as the specification words it fails on 101 refs: the Data node holds
    the first hundred refs, not the last page, whatever the pages are. *)
Lemma WriteData_layout_counterexample :
  ∃ data : fixity.DataSchema,
    testutil.assembledData 101 = Some data ∧
    fixity.Parts (fixity.Data_PartsSchema data) = testutil.someRefs 100 ∧
    ∀ pages : list fixity.PartsSchema,
      ¬ layout.asSpecified (testutil.someRefs 101) pages data.
Proof.
  eexists. split; [vm_compute; reflexivity|]. split; [vm_compute; reflexivity|].
  intros pages (_ & _ & _ & Hlast). vm_compute in Hlast. discriminate Hlast.
Qed.

(** ** Reading back what the assembler wrote, on the disk store *)

Lemma Join_inj (dir a b : string) : filepath.Join dir a = filepath.Join dir b → a = b.
Proof.
  unfold filepath.Join. intros E.
  induction dir as [|c dir IH]; simpl in E; [by simplify_eq|].
  injection E as E. by apply IH.
Qed.

Lemma concat_pages (refs : list fixity.Ref) (k : nat) :
  concat (map (λ j, take 100 (drop (100 * j) refs)) (seq 0 k)) = take (100 * k) refs.
Proof.
  induction k as [|k IH]; [by rewrite Nat.mul_0_r|].
  rewrite seq_S, map_app, concat_app, IH. simpl. rewrite app_nil_r.
  rewrite take_take_drop. f_equal. lia.
Qed.

Lemma concat_pagesOf (refs : list fixity.Ref) : concat (layout.pagesOf refs) = refs.
Proof.
  unfold layout.pagesOf. rewrite concat_pages. apply take_ge.
  unfold layout.pageCount.
  pose proof (Nat.div_mod (length refs + 99) 100 ltac:(lia)) as Hd.
  pose proof (Nat.mod_upper_bound (length refs + 99) 100 ltac:(lia)). lia.
Qed.

Section DiskRoundTrip.
Context `{!Blake2b} `{!json.Json}.
Import fixity.

Hypothesis Hash_injective : ∀ a b, disk.Hash a = disk.Hash b → a = b.
Hypothesis Unmarshal_Marshal_Parts :
  ∀ p b, json.Marshal (json.VParts p) = inr b → json.UnmarshalParts b = inr p.
Hypothesis Unmarshal_Marshal_Data :
  ∀ d b, json.Marshal (json.VData d) = inr b → json.UnmarshalData b = inr d.

Lemma disk_Write_inv (s s' : disk.Disk) (b r : string) :
  disk.Write s b = (inr r, s') →
  r = disk.Hash b ∧ disk.path s' = disk.path s ∧
  os.files (disk.fs s') = <[filepath.Join (disk.path s) r := b]> (os.files (disk.fs s)) ∧
  os.open_err (disk.fs s') = os.open_err (disk.fs s).
Proof.
  unfold disk.Write, disk.writeHash, os.WriteFile. intros E.
  destruct (os.write_err (disk.fs s) !! _); simpl in E; [discriminate|].
  by simplify_eq/=.
Qed.

Lemma disk_Write_stored (s s' : disk.Disk) (b r : string) :
  disk.Write s b = (inr r, s') → holds.stored s' r b.
Proof.
  intros (-> & Hp & Hf & _)%disk_Write_inv. unfold holds.stored.
  rewrite Hp, Hf. apply lookup_insert_eq.
Qed.

Lemma disk_Write_preserves (s s' : disk.Disk) (b r b0 : string) :
  disk.Write s b = (inr r, s') →
  holds.stored s (disk.Hash b0) b0 → holds.stored s' (disk.Hash b0) b0.
Proof.
  intros (-> & Hp & Hf & _)%disk_Write_inv. unfold holds.stored.
  rewrite Hp, Hf. intros Hs.
  destruct (decide (disk.Hash b = disk.Hash b0)) as [Heq|Hne].
  - rewrite Heq, (Hash_injective _ _ Heq). apply lookup_insert_eq.
  - rewrite lookup_insert_ne; [done|]. intros E%Join_inj. done.
Qed.

Lemma disk_Read_stored (s : disk.Disk) (h b : string) :
  holds.readable s → holds.stored s h b → disk.Read s h = inr b.
Proof.
  unfold holds.readable, holds.stored, disk.Read, os.Open. intros -> ->.
  by rewrite lookup_empty.
Qed.




End DiskRoundTrip.



(** ** The test encoder inverts *)

Lemma append_cons (c : ascii) (s t : string) : String c s +:+ t = String c (s +:+ t).
Proof. reflexivity. Qed.

Lemma append_nil_l (t : string) : "" +:+ t = t.
Proof. reflexivity. Qed.

Lemma append_nil_r (s : string) : s +:+ "" = s.
Proof. induction s as [|c s IH]; [done|]. rewrite append_cons. by rewrite IH. Qed.

Lemma append_assoc (s t u : string) : (s +:+ t) +:+ u = s +:+ (t +:+ u).
Proof. induction s as [|c s IH]; [done|]. rewrite !append_cons. by rewrite IH. Qed.

Lemma readLen_ones (n : nat) (rest : string) :
  testutil.readLen (testutil.ones n +:+ rest) = Some (n, rest).
Proof.
  induction n as [|n IH]; [reflexivity|].
  cbn [testutil.ones]. rewrite append_cons. cbn [testutil.readLen]. by rewrite IH.
Qed.

Lemma splitAt_append (s rest : string) :
  testutil.splitAt (String.length s) (s +:+ rest) = Some (s, rest).
Proof.
  induction s as [|c s IH]; [reflexivity|].
  rewrite append_cons. cbn [String.length testutil.splitAt]. by rewrite IH.
Qed.

Lemma unframe_frame (s rest : string) :
  testutil.unframe (testutil.frame s +:+ rest) = Some (s, rest).
Proof.
  unfold testutil.unframe, testutil.frame.
  by rewrite append_assoc, readLen_ones, splitAt_append.
Qed.



Lemma decZ_encZ (z : Z) (rest : string) :
  testutil.decZ (testutil.encZ z +:+ rest) = Some (z, rest).
Proof.
  unfold testutil.decZ, testutil.encZ. rewrite append_cons, readLen_ones.
  destruct (Z.ltb_spec z 0); simpl; do 2 f_equal; lia.
Qed.





Lemma framed_Unmarshal_Block (v : fixity.Block) (b : string) :
  @json.Marshal testutil.framedJson (json.VBlock v) = inr b →
  @json.UnmarshalBlock testutil.framedJson b = inr (json.storedBlock v).
Proof.
  simpl. intros [= <-]. unfold testutil.decBlock, testutil.encBlock.
  by rewrite decZ_encZ, unframe_frame.
Qed.




(** The slip of [WriteData] on a length that is a multiple of the page size
    above one page: of 200 refs the last hundred are in no page, and what is
    read back is the first hundred. *)
Lemma WriteData_drops_refs_at_200 :
  testutil.readBack 200 = inr (testutil.someRefs 100).
Proof. vm_compute. reflexivity. Qed.

(** ** Back-references *)

(** C8.  [Content.Previous] returns [ErrNoPrev] exactly when
    [PreviousContentHash] is empty and [Block.Previous] exactly when
    [PreviousBlockHash] is empty.  A failure of the store or of the decoder
    comes back wrapped, so it is never [ErrNoPrev]; and a record that is
    returned is the one decoded from the bytes stored under the hash
    followed, with that hash as its [Hash]. *)
Theorem Previous_no_prev {St : Type} `{!store.Store St} `{!json.Json}
    (s : St) (c : fixity.Content) (b : fixity.Block) :
  (history.Content_Previous s c = inl ErrNoPrev ↔ fixity.PreviousContentHash c = "") ∧
  (history.Block_Previous s b = inl ErrNoPrev ↔ fixity.PreviousBlockHash b = "") ∧
  (∀ e, fixity.PreviousContentHash c ≠ "" → fixity.Content_Store c = true →
        store.Read s (fixity.PreviousContentHash c) = inl e →
        history.Content_Previous s c = inl (Stacked e)) ∧
  (∀ e, fixity.PreviousBlockHash b ≠ "" → fixity.Block_Store b = true →
        store.Read s (fixity.PreviousBlockHash b) = inl e →
        history.Block_Previous s b = inl (Stacked e)) ∧
  (∀ pc, history.Content_Previous s c = inr pc →
     ∃ bytes stored,
       store.Read s (fixity.PreviousContentHash c) = inr bytes ∧
       json.UnmarshalContent bytes = inr stored ∧
       fixity.Content_Hash pc = fixity.PreviousContentHash c ∧
       fixity.Id pc = fixity.Id stored ∧
       fixity.PreviousContentHash pc = fixity.PreviousContentHash stored ∧
       fixity.BlobHash pc = fixity.BlobHash stored ∧
       fixity.IndexedFields pc = fixity.IndexedFields stored) ∧
  (∀ pb, history.Block_Previous s b = inr pb →
     ∃ bytes stored,
       store.Read s (fixity.PreviousBlockHash b) = inr bytes ∧
       json.UnmarshalBlock bytes = inr stored ∧
       fixity.Block_Hash pb = fixity.PreviousBlockHash b ∧
       fixity.BlockNum pb = fixity.BlockNum stored ∧
       fixity.PreviousBlockHash pb = fixity.PreviousBlockHash stored ∧
       fixity.ContentHash pb = fixity.ContentHash stored).
Proof.
  unfold history.Content_Previous, history.Block_Previous, history.readAndUnmarshal.
  repeat split.
  - destruct (decide (fixity.PreviousContentHash c = "")); [done|].
    destruct (fixity.Content_Store c); simpl; [|discriminate].
    destruct (store.Read s _); [discriminate|].
    destruct (json.UnmarshalContent _); discriminate.
  - intros ->. reflexivity.
  - destruct (decide (fixity.PreviousBlockHash b = "")); [done|].
    destruct (fixity.Block_Store b); simpl; [|discriminate].
    destruct (store.Read s _); [discriminate|].
    destruct (json.UnmarshalBlock _); discriminate.
  - intros ->. reflexivity.
  - intros e Hne -> ->. by destruct (decide _).
  - intros e Hne -> ->. by destruct (decide _).
  - intros pc E. destruct (decide _); [discriminate|].
    destruct (fixity.Content_Store c); simpl in E; [|discriminate].
    destruct (store.Read s _) as [|bytes]; [discriminate|].
    destruct (json.UnmarshalContent bytes) as [|stored] eqn:EU; [discriminate|].
    simplify_eq. by exists bytes, stored.
  - intros pb E. destruct (decide _); [discriminate|].
    destruct (fixity.Block_Store b); simpl in E; [|discriminate].
    destruct (store.Read s _) as [|bytes]; [discriminate|].
    destruct (json.UnmarshalBlock bytes) as [|stored] eqn:EU; [discriminate|].
    simplify_eq. by exists bytes, stored.
Qed.

Lemma Previous_no_prev_witness :
  @history.Content_Previous disk.Disk testutil.diskStore testutil.framedJson
    testutil.emptyDisk testutil.firstContent = inl ErrNoPrev ∧
  @history.Block_Previous disk.Disk testutil.diskStore testutil.framedJson
    testutil.emptyDisk testutil.genesisBlock = inl ErrNoPrev.
Proof.
  pose proof (@Previous_no_prev disk.Disk testutil.diskStore testutil.framedJson
                testutil.emptyDisk testutil.firstContent testutil.genesisBlock)
    as (Hc & Hb & _).
  split; [apply Hc|apply Hb]; reflexivity.
Defined.

(** ** The block chain *)

Lemma wrap64_small (x : Z) : - 2 ^ 63 ≤ x < 2 ^ 63 → wrap64 x = x.
Proof. intros Hx. unfold wrap64. rewrite Z.mod_small; lia. Qed.

Lemma countdown_S (k : nat) :
  chain.countdown (S k) = Z.of_nat (S k) :: chain.countdown k.
Proof. unfold chain.countdown. by rewrite seq_S, rev_app_distr. Qed.

Section ChainFacts.
Context `{!Blake2b} `{!json.Json} `{!camli.Camli}.
Import fixity.

Hypothesis Hash_injective : ∀ a b, disk.Hash a = disk.Hash b → a = b.
Hypothesis Unmarshal_Marshal_Block :
  ∀ v b, json.Marshal (json.VBlock v) = inr b →
         json.UnmarshalBlock b = inr (json.storedBlock v).

Lemma keeps_refl (s : disk.Disk) : chain.keeps s s.
Proof. by split. Qed.

Lemma keeps_trans (s1 s2 s3 : disk.Disk) : chain.keeps s1 s2 → chain.keeps s2 s3 → chain.keeps s1 s3.
Proof. intros [A1 B1] [A2 B2]. split; auto. Qed.

Lemma MarshalAndWrite_inv (s s' : disk.Disk) (v : json.value) (h : string) :
  local.MarshalAndWrite s v = (inr h, s') →
  ∃ b, json.Marshal v = inr b ∧ h = disk.Hash b ∧ holds.stored s' h b ∧ chain.keeps s s'.
Proof.
  unfold local.MarshalAndWrite. intros E.
  destruct (json.Marshal v) as [err|b]; [discriminate|].
  simpl in E. destruct (disk.Write s b) as [[err|h'] s1] eqn:EW; [discriminate|].
  simplify_eq. exists b. split; [done|].
  pose proof (disk_Write_inv _ _ _ _ EW) as (-> & _ & _ & Ho).
  split; [done|]. split; [by eapply disk_Write_stored|]. split.
  - intros b0. by eapply disk_Write_preserves.
  - unfold holds.readable. by rewrite Ho.
Qed.

Lemma rollAll_keeps (r : camli.Roller) :
  ∀ (s s' : disk.Disk) (totalSize : Z) (hashes : list string) res,
    local.rollAll s r totalSize hashes = (inr res, s') → chain.keeps s s'.
Proof.
  induction r as [|[c err] r IH]; intros s s' totalSize hashes res E; simpl in E.
  - simplify_eq. apply keeps_refl.
  - destruct err as [e|].
    + destruct e; simplify_eq; apply keeps_refl.
    + destruct (local.MarshalAndWrite s _) as [[e|h] s1] eqn:EW; [discriminate|].
      apply MarshalAndWrite_inv in EW as (_ & _ & _ & _ & Hk).
      eapply keeps_trans; [exact Hk|]. by eapply IH.
Qed.

Lemma chainTo_keeps (k : nat) :
  ∀ (s s' : disk.Disk) (h : string),
    chain.keeps s s' → chain.chainTo s h k → chain.chainTo s' h k.
Proof.
  induction k as [|k IH]; intros s s' h Hk; [done|].
  intros (blk & bytes & -> & HM & Hs & Hn & Hc).
  exists blk, bytes. split; [done|]. split; [done|].
  split; [by apply Hk|]. split; [done|]. by eapply IH.
Qed.

Lemma chainTo_empty_hash (s : disk.Disk) (k : nat) : chain.chainTo s "" k → k = O.
Proof.
  destruct k; [done|]. intros (blk & bytes & Hh & _). symmetry in Hh.
  by apply Hash_nonempty in Hh.
Qed.

(** A successful [Write] on a chain of [k] blocks leaves a chain of [k + 1]. *)
Lemma Write_extends (l l' : @local.Local disk.Disk) (id : string)
    (r : option string) (f : list (string * string)) (hashes : list string)
    (h : string) (k : nat) :
  Z.of_nat k + 1 < 2 ^ 63 →
  local.getHead l = inr h →
  chain.chainTo (local.store l) h k →
  local.Write l id r f = (inr hashes, l') →
  ∃ h', local.getHead l' = inr h' ∧
        chain.chainTo (local.store l') h' (S k) ∧
        chain.keeps (local.store l) (local.store l').
Proof.
  intros Hk Hhead Hchain E. unfold local.Write in E.
  destruct r as [rd|]; [|discriminate].
  destruct (camli.New rd _) as [err|roller]; [discriminate|].
  unfold local.WriteRoller in E.
  destruct (local.rollAll _ roller 0 []) as [[err|[cHashes totalSize]] s1] eqn:ER;
    [discriminate|].
  apply rollAll_keeps in ER as K1.
  destruct (local.MarshalAndWrite s1 _) as [[err|blobHash] s2] eqn:EB; [discriminate|].
  apply MarshalAndWrite_inv in EB as (_ & _ & _ & _ & K2).
  rewrite Hhead in E.
  destruct (local.MarshalAndWrite s2 _) as [[err|cHash] s3] eqn:EC; [discriminate|].
  apply MarshalAndWrite_inv in EC as (_ & _ & _ & _ & K3).
  assert (K13 : chain.keeps (local.store l) s3)
    by (eapply keeps_trans; [exact K1|]; eapply keeps_trans; [exact K2|exact K3]).
  pose proof (chainTo_keeps k _ _ h K13 Hchain) as Hchain3.
  destruct (if decide (h ≠ "") then _ else _) as [err|lastBlock] eqn:EL; [discriminate|].
  assert (HlastBlock : lastBlock = Z.of_nat k).
  { destruct (decide (h ≠ "")) as [Hne|Heq].
    - destruct k as [|k']; [simpl in Hchain3; congruence|].
      destruct Hchain3 as (blk & bytes & -> & HM & Hs & Hn & _).
      unfold local.ReadAndUnmarshal, local.ReadAndUnmarshalWithBytes, local.ReadAll in EL.
      simpl in EL. unfold disk.Read, os.Open in EL. unfold holds.stored in Hs.
      destruct (os.open_err _ !! _); [discriminate|]. rewrite Hs in EL.
      rewrite (Unmarshal_Marshal_Block _ _ HM) in EL. simpl in EL.
      by simplify_eq.
    - apply dec_stable in Heq. subst h. apply chainTo_empty_hash in Hchain3.
      by simplify_eq. }
  subst lastBlock.
  destruct (local.MarshalAndWrite s3 _) as [[err|bHash] s4] eqn:EK; [discriminate|].
  apply MarshalAndWrite_inv in EK as (bytes & HM & Hh & Hs & K4).
  unfold local.setHead in E.
  destruct (bolt.update_err (local.db l)) as [msg|]; [discriminate|].
  simplify_eq. exists (disk.Hash bytes). split; [|split].
  - unfold local.getHead in *. simpl.
    destruct (bolt.view_err (local.db l)); [discriminate|].
    by rewrite !lookup_insert_eq.
  - simpl. eexists _, bytes. split; [done|]. split; [exact HM|].
    split; [exact Hs|]. split.
    + simpl. rewrite wrap64_small; lia.
    + simpl. by eapply chainTo_keeps.
  - simpl. by eapply keeps_trans.
Qed.

Lemma appendAll_chain (reqs : list chain.request) :
  ∀ (l l' : @local.Local disk.Disk) (h : string) (k : nat),
    Z.of_nat (k + length reqs) < 2 ^ 63 →
    local.getHead l = inr h →
    chain.chainTo (local.store l) h k →
    chain.appendAll l reqs = Some l' →
    ∃ h', local.getHead l' = inr h' ∧
          chain.chainTo (local.store l') h' (k + length reqs) ∧
          chain.keeps (local.store l) (local.store l').
Proof.
  induction reqs as [|rq reqs IH]; intros l l' h k Hk Hhead Hchain E; simpl in E.
  - simplify_eq. exists h. rewrite Nat.add_0_r. split; [done|]. split; [done|].
    apply keeps_refl.
  - destruct (local.Write l _ _ _) as [[err|hashes] l1] eqn:EW; [discriminate|].
    simpl in Hk.
    destruct (Write_extends _ _ _ _ _ _ h k ltac:(lia) Hhead Hchain EW)
      as (h1 & Hhead1 & Hchain1 & K1).
    destruct (IH l1 l' h1 (S k) ltac:(lia) Hhead1 Hchain1 E) as (h' & Hh' & Hc' & K').
    exists h'. split; [done|]. simpl.
    replace (k + S (length reqs))%nat with (S k + length reqs)%nat by lia.
    split; [done|]. by eapply keeps_trans.
Qed.

(** Walking back along a chain of [k + 1] blocks. *)
Lemma walk_chain (k : nat) :
  ∀ (s : disk.Disk) (b : Block),
    holds.readable s →
    BlockNum b = Z.of_nat (S k) →
    Block_Store b = true →
    chain.chainTo s (PreviousBlockHash b) k →
    ∃ blocks : list Block,
      history.walk (S k) s b = Some blocks ∧
      map BlockNum blocks = chain.countdown (S k) ∧
      Forall (λ b, PreviousBlockHash b = "" ↔ BlockNum b = 1) blocks.
Proof.
  induction k as [|k IH]; intros s b Hread Hn Hst Hc.
  - simpl in Hc. exists [b]. cbn [history.walk]. unfold history.Block_Previous.
    rewrite Hc. simpl. split; [done|]. split; [by rewrite Hn|].
    constructor; [|constructor]. by rewrite Hc, Hn.
  - destruct Hc as (blk & bytes & Hh & HM & Hs & Hnum & Hc).
    pose proof (Hash_nonempty bytes) as Hnonempty.
    set (p := {| BlockNum := BlockNum blk;
                 PreviousBlockHash := PreviousBlockHash blk;
                 ContentHash := ContentHash blk;
                 Block_Hash := PreviousBlockHash b;
                 Block_Store := Block_Store b |}).
    assert (HP : history.Block_Previous s b = inr p).
    { unfold history.Block_Previous, history.readAndUnmarshal.
      destruct (decide (PreviousBlockHash b = "")) as [He|_]; [congruence|].
      rewrite Hst. simpl.
      rewrite (disk_Read_stored _ _ _ Hread Hs).
      rewrite (Unmarshal_Marshal_Block _ _ HM). unfold p. by rewrite Hst. }
    destruct (IH s p Hread Hnum Hst Hc) as (blocks & Hw & Hnums & Hall).
    exists (b :: blocks). split; [|split].
    + change (history.walk (S (S k)) s b)
        with (match history.Block_Previous s b with
              | inl ErrNoPrev => Some [b]
              | inl _ => None
              | inr p => option_map (cons b) (history.walk (S k) s p)
              end).
      by rewrite HP, Hw.
    + rewrite (countdown_S (S k)). simpl. by rewrite Hn, Hnums.
    + constructor; [|done]. rewrite Hn, Hh. split; [done|lia].
Qed.

End ChainFacts.

(** C4.  After K appends in a row, each successful, on an instance whose head
    is empty, [Head] is the block numbered K; walking back with [Previous]
    visits K blocks, numbered K down to 1, and then reports the end of the
    chain; and [PreviousBlockHash] is empty exactly at block 1.  The hash has
    no collisions, decoding a block inverts encoding it, the files of the
    store open and K fits a 64-bit integer. *)
Theorem chain_integrity `{!Blake2b} `{!json.Json} `{!camli.Camli}
    (l0 l : @local.Local disk.Disk) (reqs : list chain.request) :
  (∀ a b, disk.Hash a = disk.Hash b → a = b) →
  (∀ v b, json.Marshal (json.VBlock v) = inr b →
          json.UnmarshalBlock b = inr (json.storedBlock v)) →
  local.getHead l0 = inr "" →
  holds.readable (local.store l0) →
  reqs ≠ [] →
  Z.of_nat (length reqs) < 2 ^ 63 →
  chain.appendAll l0 reqs = Some l →
  ∃ (head : fixity.Block) (blocks : list fixity.Block),
    history.Head l = inr head ∧
    history.walk (length reqs) (local.store l) head = Some blocks ∧
    length blocks = length reqs ∧
    map fixity.BlockNum blocks = chain.countdown (length reqs) ∧
    Forall (λ b, fixity.PreviousBlockHash b = "" ↔ fixity.BlockNum b = 1) blocks.
Proof.
  intros Hinj Hcodec Hhead Hread Hne HK E.
  destruct (appendAll_chain Hinj Hcodec reqs l0 l "" 0 ltac:(simpl; lia) Hhead
              ltac:(done) E) as (h & Hh & Hc & [_ Hr]).
  specialize (Hr Hread). simpl in Hc.
  destruct (length reqs) as [|k] eqn:EK; [by destruct reqs|].
  destruct Hc as (blk & bytes & -> & HM & Hs & Hnum & Hc).
  set (head := {| fixity.BlockNum := fixity.BlockNum blk;
                  fixity.PreviousBlockHash := fixity.PreviousBlockHash blk;
                  fixity.ContentHash := fixity.ContentHash blk;
                  fixity.Block_Hash := disk.Hash bytes;
                  fixity.Block_Store := true |}).
  assert (HH : history.Head l = inr head).
  { unfold history.Head, history.readAndUnmarshal. rewrite Hh.
    destruct (decide (disk.Hash bytes = "")) as [He|_];
      [by apply Hash_nonempty in He|].
    simpl. rewrite (disk_Read_stored _ _ _ Hr Hs).
    by rewrite (Hcodec _ _ HM). }
  destruct (walk_chain Hcodec k (local.store l) head Hr Hnum eq_refl Hc)
    as (blocks & Hw & Hnums & Hall).
  exists head, blocks. split; [done|]. split; [done|]. split; [|done].
  rewrite <- (length_map fixity.BlockNum), Hnums. unfold chain.countdown.
  by rewrite length_map, length_rev, length_seq.
Qed.

Lemma wholeRoller_chain_readable : holds.readable (local.store testutil.emptyLocal).
Proof. reflexivity. Qed.

Lemma chain_integrity_witness :
  ∃ (l : @local.Local disk.Disk) (head : fixity.Block) (blocks : list fixity.Block),
    testutil.afterThree = Some l ∧
    @history.Head disk.Disk testutil.diskStore testutil.framedJson testutil.wholeRoller l
      = inr head ∧
    @history.walk disk.Disk testutil.diskStore testutil.framedJson 3 (local.store l) head
      = Some blocks ∧
    map fixity.BlockNum blocks = [3; 2; 1].
Proof.
  destruct testutil.afterThree as [l|] eqn:E.
  - destruct (@chain_integrity testutil.idHash testutil.framedJson testutil.wholeRoller
                testutil.emptyLocal l testutil.threeRequests
                idHash_inj framed_Unmarshal_Block eq_refl wholeRoller_chain_readable
                ltac:(discriminate) ltac:(simpl; lia) E)
      as (head & blocks & HH & Hw & _ & Hn & _).
    exists l, head, blocks. split; [reflexivity|]. split; [exact HH|].
    split; [exact Hw|exact Hn].
  - exfalso.
    assert (Hrun : testutil.succeeded testutil.afterThree = true)
      by (vm_compute; reflexivity).
    rewrite E in Hrun. discriminate.
Defined.

(** ** The textual query *)

Lemma cut_noColon (s : string) : qspec.noColon s → q.cut ":" s = None.
Proof.
  unfold qspec.noColon. induction s as [|c s IH]; [done|].
  cbn [qspec.contains q.cut q.cutPrefix].
  destruct (decide (":"%char = c)); [done|]. intros Hs. by rewrite (IH Hs).
Qed.

Lemma cut_at_colon (a b : string) :
  qspec.noColon a → q.cut ":" (a +:+ ":" +:+ b) = Some (a, b).
Proof.
  unfold qspec.noColon. induction a as [|c a IH].
  - intros _. reflexivity.
  - rewrite append_cons. cbn [qspec.contains q.cut q.cutPrefix].
    destruct (decide (":"%char = c)); [done|]. intros Ha. by rewrite (IH Ha).
Qed.

Lemma splitPart_value (p : string) : qspec.noColon p → q.splitPart p = ("", "", p).
Proof. intros Hp. unfold q.splitPart. cbn [q.SplitN]. by rewrite cut_noColon. Qed.

Lemma splitPart_field_value (f v : string) :
  qspec.noColon f → qspec.noColon v → q.splitPart (f +:+ ":" +:+ v) = ("", f, v).
Proof.
  intros Hf Hv. unfold q.splitPart. cbn [q.SplitN].
  by rewrite cut_at_colon, cut_noColon.
Qed.

Lemma splitPart_op_field_value (o f v : string) :
  qspec.noColon o → qspec.noColon f →
  q.splitPart (o +:+ ":" +:+ f +:+ ":" +:+ v) = (o, f, v).
Proof.
  intros Ho Hf. unfold q.splitPart. cbn [q.SplitN].
  by rewrite cut_at_colon, cut_at_colon.
Qed.

Section FromStringFacts.
Context `{!q.Operators} `{!q.Str}.

Lemma step_fieldless (fl : list string) (cs : list q.Constraint) (p : string) :
  qspec.fieldless p = true →
  q.step (fl, cs) p = (fl ++ [qspec.valueOf p], cs).
Proof.
  unfold qspec.fieldless, qspec.valueOf, q.step.
  destruct (q.splitPart p) as [[op field] v]. simpl.
  intros Hf%bool_decide_eq_true. by rewrite decide_True.
Qed.

Lemma step_fielded (fl : list string) (cs : list q.Constraint) (p : string) :
  qspec.fieldless p = false →
  q.step (fl, cs) p = (fl, cs ++ [qspec.constraintOf p]).
Proof.
  unfold qspec.fieldless, qspec.constraintOf, q.step.
  destruct (q.splitPart p) as [[op field] v]. simpl.
  intros Hf%bool_decide_eq_false. rewrite decide_False by done.
  do 3 f_equal.
  destruct (decide (op = "eq")) as [->|Hne].
  - by rewrite bool_decide_eq_true_2 by (by left).
  - destruct (decide (op = "")) as [->|Hne'].
    + by rewrite bool_decide_eq_true_2 by (by right).
    + rewrite bool_decide_eq_false_2; [done|]. by intros [?|?].
Qed.

Lemma fold_step (parts : list string) :
  ∀ (fl : list string) (cs : list q.Constraint),
    fold_left q.step parts (fl, cs)
    = (fl ++ map qspec.valueOf (filter (λ p, qspec.fieldless p = true) parts),
       cs ++ map qspec.constraintOf (filter (λ p, qspec.fieldless p = false) parts)).
Proof.
  induction parts as [|p parts IH]; intros fl cs.
  - simpl. by rewrite !app_nil_r.
  - cbn [fold_left]. destruct (qspec.fieldless p) eqn:Ef.
    + rewrite step_fieldless, IH by done.
      rewrite (filter_cons_True _ p) by done.
      rewrite (filter_cons_False _ p) by (by rewrite Ef).
      cbn [map]. by rewrite <- app_assoc.
    + rewrite step_fielded, IH by done.
      rewrite (filter_cons_False _ p) by (by rewrite Ef).
      rewrite (filter_cons_True _ p) by done.
      cbn [map]. by rewrite <- app_assoc.
Qed.

(** C5, as the code has it.  [FromString] cuts each token of the tokenizer
    at its first one or two colons into (op, field, value), (field, value) or
    (value); the tokens with an operator or a field give one constraint
    each, in order, and the values of the others, joined by spaces, give one
    more free-text Equal constraint at the end when there are any; a single
    constraint is the query's constraint, otherwise all of them, the
    free-text one included, are under one And. *)
Theorem FromString_parsed (s : string) :
  q.FromString s = qspec.parsed s ∧
  (∀ p, qspec.noColon p → q.splitPart p = ("", "", p)) ∧
  (∀ f v, qspec.noColon f → qspec.noColon v →
          q.splitPart (f +:+ ":" +:+ v) = ("", f, v)) ∧
  (∀ o f v, qspec.noColon o → qspec.noColon f →
            q.splitPart (o +:+ ":" +:+ f +:+ ":" +:+ v) = (o, f, v)).
Proof.
  split; [|split; [|split]].
  - unfold q.FromString, qspec.parsed. rewrite fold_step. simpl.
    set (free := map qspec.valueOf _). set (fielded := map qspec.constraintOf _).
    destruct free as [|x free]; simpl.
    + by rewrite app_nil_r.
    + done.
  - apply splitPart_value.
  - apply splitPart_field_value.
  - apply splitPart_op_field_value.
Qed.

End FromStringFacts.

Lemma FromString_parsed_witness :
  q.splitPart "gt:size:5" = ("gt", "size", "5") ∧
  q.splitPart "name:foo" = ("", "name", "foo") ∧
  @q.FromString testutil.operators testutil.spaces "name:foo bar baz"
  = @qspec.parsed testutil.operators testutil.spaces "name:foo bar baz".
Proof.
  pose proof (@FromString_parsed testutil.operators testutil.spaces "name:foo bar baz")
    as (Hp & _ & Hfv & Hofv).
  split; [|split].
  - apply (Hofv "gt" "size" "5"); reflexivity.
  - apply (Hfv "name" "foo"); reflexivity.
  - exact Hp.
Defined.

(** C5 as the specification words it fails on [a:b c]: the free-text
    constraint is under the same And as the other one, and no Or is built. *)
Lemma FromString_counterexample :
  @q.FromString testutil.operators testutil.spaces "a:b c"
  = {| q.Query_Constraint :=
         Some (q.MkConstraint "and" None None
                 [q.MkConstraint "eq" (Some "a") (Some (q.value_String "b")) [];
                  q.MkConstraint "eq" None (Some (q.value_String "c")) []]);
       q.LimitBy := 0; q.SkipBy := 0 |} ∧
  @q.FromString testutil.operators testutil.spaces "a:b c"
  ≠ @qspec.asSpecified testutil.operators testutil.spaces "a:b c" ∧
  (∀ c, q.Query_Constraint (@q.FromString testutil.operators testutil.spaces "a:b c")
        = Some c → qspec.uses "or" c = false).
Proof.
  split; [reflexivity|]. split.
  - vm_compute. discriminate.
  - intros c [= <-]. reflexivity.
Qed.

(** ** The index query *)

Section QueryFacts.
Context {D : Type} `{!dbindex.Database D}.

Lemma fetch_error (dbi : D) (fromEntry : Z) (n : nat) :
  ∀ (i : Z) (es : list string) (e : error),
    dbindex.fetch dbi fromEntry n i es = inl e →
    ∃ e', e = Wrapped e' "failed to get entry from db".
Proof.
  induction n as [|n IH]; intros i es e E; simpl in E; [discriminate|].
  destruct (dbindex.GetIndexEntry dbi _) as [e0|h]; [|by eapply IH].
  destruct e0; simplify_eq; eauto.
Qed.

(** Once the version of the index is read, the query fails with
    [ErrIndexVersionsDoNotMatch] exactly when the caller's version is not
    empty and differs from it; with matching versions a limit of 0 gives
    [ErrNoQueryResults]. *)
Lemma Query_checks (dbi : D) (qy : index.Query) (v : string) :
  dbindex.GetNodeId dbi = inr v →
  (dbindex.Query dbi qy = Done (inl ErrIndexVersionsDoNotMatch)
   ↔ index.IndexVersion qy ≠ "" ∧ v ≠ index.IndexVersion qy) ∧
  (¬ (index.IndexVersion qy ≠ "" ∧ v ≠ index.IndexVersion qy) →
   index.Limit qy = 0 → dbindex.Query dbi qy = Done (inl ErrNoQueryResults)).
Proof.
  intros Hv. unfold dbindex.Query. rewrite Hv.
  destruct (decide (index.IndexVersion qy ≠ "" ∧ v ≠ index.IndexVersion qy)) as [Hm|Hm].
  - split; [done|]. intros Hn. by destruct Hn.
  - split.
    + split; [|done]. intros E. exfalso.
      destruct (decide (index.Limit qy = 0)); [discriminate|].
      destruct (decide (index.FromEntry qy ≠ 0)); [|discriminate].
      destruct (index.Limit qy <? 0); [discriminate|].
      destruct (dbindex.fetch _ _ _ _ _) as [err|[i es]] eqn:EF; [|discriminate].
      apply fetch_error in EF as [e' ->]. discriminate.
    + intros _ ->. by rewrite decide_True.
Qed.

(** C10, as the code has it.  With [FromEntry] equal to 0 no entry is
    fetched: the outcome depends on the version of the index alone and is
    never a result; when the version is read and the caller's version is
    empty or equal to it, the query fails with [ErrNoQueryResults]. *)
Theorem Query_from_zero (dbi : D) (qy : index.Query) :
  index.FromEntry qy = 0 →
  (∀ v, dbindex.GetNodeId dbi = inr v →
        index.IndexVersion qy = "" ∨ v = index.IndexVersion qy →
        dbindex.Query dbi qy = Done (inl ErrNoQueryResults)) ∧
  (∀ r, dbindex.Query dbi qy ≠ Done (inr r)) ∧
  (∀ dbi' : D, dbindex.GetNodeId dbi' = dbindex.GetNodeId dbi →
               dbindex.Query dbi' qy = dbindex.Query dbi qy).
Proof.
  intros H0. unfold dbindex.Query. rewrite H0. split; [|split].
  - intros v -> Hv.
    rewrite decide_False.
    + by destruct (decide (index.Limit qy = 0)).
    + intros [Hne Hd]. destruct Hv as [Hv|Hv]; congruence.
  - intros r. destruct (dbindex.GetNodeId dbi); [discriminate|].
    destruct (decide _); [discriminate|].
    by destruct (decide (index.Limit qy = 0)).
  - intros dbi' ->. destruct (dbindex.GetNodeId dbi); [done|].
    destruct (decide _); [done|].
    by destruct (decide (index.Limit qy = 0)).
Qed.

End QueryFacts.

Lemma Query_from_zero_witness :
  @dbindex.Query testutil.memDB testutil.memDatabase testutil.twoEntries
    nodespec.defaultQuery = Done (inl ErrNoQueryResults).
Proof.
  apply (proj1 (@Query_from_zero testutil.memDB testutil.memDatabase
                  testutil.twoEntries nodespec.defaultQuery eq_refl) "v1");
    [reflexivity|by left].
Defined.

(** C10 as stated fails when the caller's version differs from the index's:
    with [FromEntry] 0 the query fails with the version error. *)
Lemma Query_from_zero_counterexample :
  index.FromEntry {| index.FromEntry := 0; index.Limit := 5; index.IndexVersion := "v2" |} = 0 ∧
  @dbindex.Query testutil.memDB testutil.memDatabase testutil.twoEntries
    {| index.FromEntry := 0; index.Limit := 5; index.IndexVersion := "v2" |}
  = Done (inl ErrIndexVersionsDoNotMatch) ∧
  @dbindex.Query testutil.memDB testutil.memDatabase testutil.twoEntries
    {| index.FromEntry := 0; index.Limit := 5; index.IndexVersion := "v2" |}
  ≠ Done (inl ErrNoQueryResults).
Proof. split; [reflexivity|]. split; [reflexivity|]. vm_compute. discriminate. Qed.

(** C6 at the failing input: on an index without entries the page asked
    from entry 1 is empty, and [Query] returns it without an error; so
    [QueryOne] returns a result with an empty hash. *)
Theorem Query_empty_page_no_error :
  @dbindex.Query testutil.memDB testutil.memDatabase testutil.noEntries
    {| index.FromEntry := 1; index.Limit := 5; index.IndexVersion := "" |}
  = Done (inr {| index.Results_IndexVersion := "v1"; index.Hashes := [] |}) ∧
  @dbindex.QueryOne testutil.memDB testutil.memDatabase testutil.noEntries
    {| index.FromEntry := 1; index.Limit := 5; index.IndexVersion := "" |}
  = Done (inr {| index.Result_IndexVersion := "v1"; index.Hash := "" |}).
Proof. split; reflexivity. Qed.

(** ** The HTTP handlers *)

Lemma Error_Code (w : http.ResponseWriter) (msg : string) (code : Z) :
  http.status w = None → http.Code (http.Error w msg code) = code.
Proof.
  intros Hw. unfold http.Error, http.Write, http.WriteHeader, http.Code.
  rewrite Hw. simpl. by destruct (http.broken w).
Qed.

Section HandlerFacts.
Context {St I : Type} `{!store.Store St} `{!node.Index I} `{!json.Json}.

Lemma queryParams_invalid (w : http.ResponseWriter)
    (params : list (string * (string * list string))) :
  http.status w = None →
  Exists nodespec.invalidParam params →
  ∀ qy, ∃ w', node.queryParams w params qy = inl w' ∧
              http.Code w' = http.StatusInternalServerError.
Proof.
  intros Hw. induction params as [|[k [v0 vs]] params IH]; intros Hex qy.
  - inversion Hex.
  - cbn [node.queryParams].
    assert (Hrest : ¬ nodespec.invalidParam (k, (v0, vs)) →
                    ∀ qy', ∃ w', node.queryParams w params qy' = inl w' ∧
                                 http.Code w' = http.StatusInternalServerError).
    { intros Hvalid. apply IH. by inversion Hex. }
    unfold nodespec.invalidParam in Hrest.
    destruct (decide (k = "fromEntry")) as [->|Hk1].
    { destruct (strconv.Atoi v0) as [err|i] eqn:EA.
      - eexists. split; [done|]. by apply Error_Code.
      - apply Hrest. intros [[_ [err Herr]]|[? _]]; congruence. }
    destruct (decide (k = "limit")) as [->|Hk2].
    { destruct (strconv.Atoi v0) as [err|i] eqn:EA.
      - eexists. split; [done|]. by apply Error_Code.
      - apply Hrest. intros [[_ [err Herr]]|[_ [? _]]]; congruence. }
    destruct (decide (k = "indexVersion")) as [->|Hk3].
    { apply Hrest. intros [[[?|?] _]|[_ [_ ?]]]; congruence. }
    eexists. split; [done|]. by apply Error_Code.
Qed.

(** C7, as the code has it.  On a fresh response: checking or reading a
    blob that the store does not have gives 404; writing by ref gives 403
    when the store reports that the content does not match the hash; the
    query endpoint gives 404 when the index reports no results, 500 when it
    reports another error, and 500 when a query parameter is invalid. *)
Theorem handlers_status (n : @node.Node St I) (w : http.ResponseWriter)
    (r : http.Request) :
  http.status w = None →
  (store.Exists (node.store_ n) (http.URLParam_hash r) = inr false →
   http.Code (node.HeadBlobHandler n w r) = 404) ∧
  (store.Read (node.store_ n) (http.URLParam_hash r) = inl HashNotFoundErr →
   http.Code (node.GetBlobHandler n w r) = 404) ∧
  (fst (store.WriteHash (node.store_ n) (http.URLParam_hash r) (http.Body r))
     = Some HashNotMatchContentErr →
   http.Code (fst (node.PutBlobHandler n w r)) = 403) ∧
  (∀ qy, node.queryParams w (http.URLQuery r) nodespec.defaultQuery = inr qy →
         node.Query (node.index_ n) qy = Done (inl ErrNoQueryResults) →
         ∃ w', node.GetQueryHandler n w r = Done w' ∧ http.Code w' = 404) ∧
  (∀ qy err, node.queryParams w (http.URLQuery r) nodespec.defaultQuery = inr qy →
             node.Query (node.index_ n) qy = Done (inl err) →
             err ≠ ErrNoQueryResults →
             ∃ w', node.GetQueryHandler n w r = Done w' ∧ http.Code w' = 500) ∧
  (Exists nodespec.invalidParam (http.URLQuery r) →
   ∃ w', node.GetQueryHandler n w r = Done w' ∧ http.Code w' = 500).
Proof.
  intros Hw. repeat split.
  - intros E. unfold node.HeadBlobHandler. rewrite E. simpl. by apply Error_Code.
  - intros E. unfold node.GetBlobHandler. rewrite E. by apply Error_Code.
  - unfold node.PutBlobHandler, store.WriteHashReader.
    destruct (store.WriteHash _ _ _) as [err s']. simpl. intros ->. simpl.
    by apply Error_Code.
  - intros qy EP EQ. unfold node.GetQueryHandler.
    change {| index.FromEntry := 0; index.Limit := 5; index.IndexVersion := "" |}
      with nodespec.defaultQuery.
    rewrite EP, EQ. eexists. split; [done|]. by apply Error_Code.
  - intros qy err EP EQ Hne. unfold node.GetQueryHandler.
    change {| index.FromEntry := 0; index.Limit := 5; index.IndexVersion := "" |}
      with nodespec.defaultQuery.
    rewrite EP, EQ.
    destruct err; try (eexists; split; [done|]; by apply Error_Code). done.
  - intros Hex. unfold node.GetQueryHandler.
    destruct (queryParams_invalid w _ Hw Hex
                {| index.FromEntry := 0; index.Limit := 5; index.IndexVersion := "" |})
      as (w' & -> & Hc).
    by exists w'.
Qed.

End HandlerFacts.

Lemma handlers_status_witness :
  testutil.queryStatus [("limit", ("abc", []))] = Done 500 ∧
  testutil.queryStatus [] = Done 404.
Proof.
  pose proof (@handlers_status disk.Disk testutil.memDB testutil.diskStore
                testutil.memIndex testutil.framedJson testutil.aNode
                (http.NewRecorder false)
                (testutil.request "" "" [("limit", ("abc", []))]) eq_refl)
    as (_ & _ & _ & _ & _ & Hinvalid).
  pose proof (@handlers_status disk.Disk testutil.memDB testutil.diskStore
                testutil.memIndex testutil.framedJson testutil.aNode
                (http.NewRecorder false) (testutil.request "" "" []) eq_refl)
    as (_ & _ & _ & Hempty & _).
  split.
  - destruct Hinvalid as (w' & Hh & Hc).
    + constructor. left. split; [by right|]. by exists ErrSyntax.
    + unfold testutil.queryStatus. unfold testutil.diskStore in Hh. rewrite Hh.
      by rewrite Hc.
  - destruct (Hempty nodespec.defaultQuery eq_refl eq_refl) as (w' & Hh & Hc).
    unfold testutil.queryStatus. unfold testutil.diskStore in Hh. rewrite Hh.
    by rewrite Hc.
Defined.

(** C7 as stated fails on a query parameter that is not an integer: the
    status is 500, not 400. *)
Lemma handlers_status_counterexample :
  testutil.queryStatus [("limit", ("abc", []))] = Done http.StatusInternalServerError ∧
  testutil.queryStatus [("limit", ("abc", []))] ≠ Done http.StatusBadRequest ∧
  testutil.queryStatus [("bogus", ("1", []))] ≠ Done http.StatusBadRequest.
Proof. split; [reflexivity|]. split; vm_compute; discriminate. Qed.

(* ================================================================== *)
(** * Further properties of the code *)
(* ================================================================== *)

(** ** The disk store *)

(** X1.  What [Write] stored is what [Read] returns: after a successful
    [Write(b)] that returned [h], reading [h] gives [b] and [Exists(h)] is
    true, when opening and inspecting that file do not fail. *)
Theorem Write_then_Read `{!Blake2b} (s s' : disk.Disk) (b h : string) :
  disk.Write s b = (inr h, s') →
  os.open_err (disk.fs s) !! filepath.Join (disk.path s) h = None →
  os.stat_err (disk.fs s) !! filepath.Join (disk.path s) h = None →
  disk.Read s' h = inr b ∧ disk.Exists s' h = inr true.
Proof.
  unfold disk.Write, disk.writeHash, os.WriteFile. intros E Ho Hs.
  destruct (os.write_err (disk.fs s) !! _); simpl in E; [discriminate|].
  simplify_eq. unfold disk.Read, disk.Exists, os.Open, os.Stat. simpl.
  by rewrite Ho, Hs, lookup_insert_eq.
Qed.

Lemma Write_then_Read_witness :
  let s' := snd (@disk.Write testutil.idHash testutil.emptyDisk "a") in
  disk.Read s' "blake2b256-61" = inr "a" ∧ disk.Exists s' "blake2b256-61" = inr true.
Proof.
  intros s'.
  apply (@Write_then_Read testutil.idHash testutil.emptyDisk s' "a" "blake2b256-61");
    reflexivity.
Defined.

(** X2.  A successful [WriteHash(h, b)] stores [b] under [h], and [h] is the
    hash of [b]: reading [h] afterwards gives [b] when the file opens. *)
Theorem WriteHash_then_Read `{!Blake2b} (s s' : disk.Disk) (h b : string) :
  disk.WriteHash s h b = (None, s') →
  os.open_err (disk.fs s) !! filepath.Join (disk.path s) h = None →
  h = disk.Hash b ∧ disk.Read s' h = inr b.
Proof.
  unfold disk.WriteHash, disk.writeHash, os.WriteFile. intros E Ho.
  destruct (decide (h ≠ disk.Hash b)) as [Hne|Heq]; [discriminate|].
  apply dec_stable in Heq. split; [done|].
  destruct (os.write_err (disk.fs s) !! _); simpl in E; [discriminate|].
  simplify_eq. unfold disk.Read, os.Open. simpl.
  by rewrite Ho, lookup_insert_eq.
Qed.

Lemma WriteHash_then_Read_witness :
  let s' := snd (@disk.WriteHash testutil.idHash testutil.emptyDisk "blake2b256-61" "a") in
  "blake2b256-61" = @disk.Hash testutil.idHash "a" ∧
  disk.Read s' "blake2b256-61" = inr "a".
Proof.
  intros s'.
  apply (@WriteHash_then_Read testutil.idHash testutil.emptyDisk s' "blake2b256-61" "a");
    reflexivity.
Defined.

(** X3.  A write touches one file: after [Write(b)] returned [h], [Read] and
    [Exists] of every other name that is a single path component (as the
    hashes are: no separator, not empty, neither [.] nor [..], so that joining
    it to the store's path cleans nothing away) answer as they did before. *)
Theorem Write_keeps_other_blobs `{!Blake2b} (s s' : disk.Disk) (b h h' : string) :
  disk.Write s b = (inr h, s') →
  pathspec.component h' →
  h' ≠ h →
  disk.Read s' h' = disk.Read s h' ∧ disk.Exists s' h' = disk.Exists s h'.
Proof.
  unfold disk.Write, disk.writeHash, os.WriteFile. intros E _ Hne.
  destruct (os.write_err (disk.fs s) !! _); simpl in E; [discriminate|].
  simplify_eq. unfold disk.Read, disk.Exists, os.Open, os.Stat. simpl.
  rewrite lookup_insert_ne; [done|]. intros Heq%Join_inj. congruence.
Qed.

Lemma Write_keeps_other_blobs_witness :
  let s1 := snd (@disk.Write testutil.idHash testutil.emptyDisk "a") in
  let s2 := snd (@disk.Write testutil.idHash s1 "b") in
  disk.Read s2 "blake2b256-61" = disk.Read s1 "blake2b256-61" ∧
  disk.Exists s2 "blake2b256-61" = disk.Exists s1 "blake2b256-61".
Proof.
  intros s1 s2.
  apply (@Write_keeps_other_blobs testutil.idHash s1 s2 "b" "blake2b256-62");
    [reflexivity|by repeat split|discriminate].
Defined.

(** X4.  [Exists] and [Read] agree on a file that can be inspected and
    opened: [Exists] is false exactly when [Read] fails with
    [HashNotFoundErr], and true exactly when [Read] returns bytes. *)
Theorem Exists_agrees_with_Read (s : disk.Disk) (h : string) :
  os.stat_err (disk.fs s) !! filepath.Join (disk.path s) h = None →
  os.open_err (disk.fs s) !! filepath.Join (disk.path s) h = None →
  (disk.Exists s h = inr false ↔ disk.Read s h = inl HashNotFoundErr) ∧
  (disk.Exists s h = inr true ↔ ∃ b, disk.Read s h = inr b).
Proof.
  unfold disk.Exists, disk.Read, os.Stat, os.Open. intros -> ->.
  destruct (os.files (disk.fs s) !! _) as [b|]; split; split; try done.
  - intros _. by exists b.
  - intros [b' ?]. discriminate.
Qed.

Lemma Exists_agrees_with_Read_witness :
  disk.Exists testutil.emptyDisk "blake2b256-61" = inr false ∧
  disk.Read testutil.emptyDisk "blake2b256-61" = inl HashNotFoundErr.
Proof.
  pose proof (Exists_agrees_with_Read testutil.emptyDisk "blake2b256-61"
                eq_refl eq_refl) as [Hf _].
  split; [reflexivity|]. by apply Hf.
Defined.

(** ** The store helpers *)

(** X5.  [WriteHashReader] hands the outcome of the store's [WriteHash] on:
    it succeeds exactly when the store does, reports
    [HashNotMatchContentErr] itself, never wrapped, exactly when the store
    does, wraps every other error, and leaves the store as [WriteHash] left
    it. *)
Theorem WriteHashReader_outcome {St : Type} `{!store.Store St}
    (s : St) (h r : string) :
  snd (store.WriteHashReader s h r) = snd (store.WriteHash s h r) ∧
  (fst (store.WriteHashReader s h r) = None ↔ fst (store.WriteHash s h r) = None) ∧
  (fst (store.WriteHashReader s h r) = Some HashNotMatchContentErr
   ↔ fst (store.WriteHash s h r) = Some HashNotMatchContentErr) ∧
  (∀ e, fst (store.WriteHash s h r) = Some e → e ≠ HashNotMatchContentErr →
        fst (store.WriteHashReader s h r) = Some (Wrapped e "store failed to write")).
Proof.
  unfold store.WriteHashReader.
  destruct (store.WriteHash s h r) as [[e|] s']; [|by repeat split].
  destruct e; simpl; (split; [done|]); (split; [done|]); (split; [done|]);
    intros e' [= <-] Hne; done.
Qed.

Lemma WriteHashReader_outcome_witness :
  fst (@store.WriteHashReader disk.Disk testutil.diskStore testutil.emptyDisk
         "blake2b256-00" "a") = Some HashNotMatchContentErr ∧
  fst (@store.WriteHashReader disk.Disk testutil.diskStore testutil.emptyDisk
         "blake2b256-61" "a") = None.
Proof.
  pose proof (@WriteHashReader_outcome disk.Disk testutil.diskStore testutil.emptyDisk
                "blake2b256-00" "a") as (_ & _ & Hm & _).
  pose proof (@WriteHashReader_outcome disk.Disk testutil.diskStore testutil.emptyDisk
                "blake2b256-61" "a") as (_ & Hn & _).
  split; [apply Hm|apply Hn]; reflexivity.
Defined.

(** ** The head, the roller and the local write *)

(** X6.  The head that [setHead] stored is the head [getHead] returns; the
    other buckets and the other keys of the bucket stay as they were, and a
    failed [setHead] leaves the database untouched. *)
Theorem setHead_then_getHead {St : Type} (l : @local.Local St) (h : string) :
  (∀ db', local.setHead l h = (None, db') →
     bolt.view_err (local.db l) = None →
     local.getHead {| local.db := db'; local.store := local.store l |} = inr h ∧
     (∀ k, k ≠ local.blockMetaBucketKey →
           bolt.buckets db' !! k = bolt.buckets (local.db l) !! k) ∧
     (∀ bkt bkt' k,
        bolt.buckets (local.db l) !! local.blockMetaBucketKey = Some bkt →
        bolt.buckets db' !! local.blockMetaBucketKey = Some bkt' →
        k ≠ local.lastBlockKey → bkt' !! k = bkt !! k)) ∧
  (∀ err db', local.setHead l h = (Some err, db') → db' = local.db l).
Proof.
  unfold local.setHead. split.
  - intros db' E Hv.
    destruct (bolt.update_err (local.db l)); [discriminate|]. simplify_eq.
    split; [|split].
    + unfold local.getHead. simpl. by rewrite Hv, !lookup_insert_eq.
    + intros k Hk. simpl. by rewrite lookup_insert_ne.
    + intros bkt bkt' k Hb Hb' Hk. simpl in Hb'.
      rewrite lookup_insert_eq in Hb'. simplify_eq. rewrite Hb. simpl.
      by rewrite lookup_insert_ne.
  - intros err db' E. destruct (bolt.update_err (local.db l)); by simplify_eq.
Qed.

Lemma setHead_then_getHead_witness :
  let db' := snd (local.setHead testutil.emptyLocal "blake2b256-61") in
  local.getHead {| local.db := db'; local.store := testutil.emptyDisk |}
  = inr "blake2b256-61".
Proof.
  intros db'.
  apply (proj1 (setHead_then_getHead testutil.emptyLocal "blake2b256-61") db');
    reflexivity.
Defined.

Lemma wrap64_add_l (x y : Z) : wrap64 (wrap64 x + y) = wrap64 (x + y).
Proof.
  unfold wrap64. f_equal.
  replace ((x + 2 ^ 63) mod 2 ^ 64 - 2 ^ 63 + y + 2 ^ 63)
    with ((x + 2 ^ 63) mod 2 ^ 64 + y) by lia.
  rewrite Z.add_mod_idemp_l by lia. f_equal. lia.
Qed.

Section RollerFacts.
Context {St : Type} `{!store.Store St} `{!json.Json} `{!camli.Camli}.

Lemma rollAll_result (r : camli.Roller) :
  ∀ (s s' : St) (t total : Z) (hs hashes : list string),
    local.rollAll s r t hs = (inr (hashes, total), s') →
    ∃ new, hashes = hs ++ new ∧
           length new = length (rollspec.yielded r) ∧
           total = wrap64 (t + rollspec.sizes (rollspec.yielded r)
                           + fixity.Chunk_Size (rollspec.atEOF r)) ∧
           rollspec.failure r = None.
Proof.
  induction r as [|[c err] r IH]; intros s s' t total hs hashes E; simpl in E.
  - simplify_eq. exists []. simpl. rewrite app_nil_r. repeat split.
    f_equal. lia.
  - destruct err as [e|].
    + destruct e; simplify_eq. exists []. simpl. rewrite app_nil_r.
      repeat split. f_equal. lia.
    + destruct (local.MarshalAndWrite s _) as [[e|h] s1]; [discriminate|].
      apply IH in E as (new & -> & Hlen & -> & Hf).
      exists (h :: new). simpl. rewrite <- app_assoc. split; [done|].
      split; [by rewrite Hlen|]. split; [|done].
      rewrite Z.add_assoc, <- (Z.add_assoc (wrap64 _)), wrap64_add_l. f_equal. lia.
Qed.

(** X7.  A successful [WriteRoller] returns one hash for each chunk the
    roller yielded before the end of the stream, and the total size is the
    64-bit sum of their sizes and of the size of the chunk that came with
    [io.EOF], which is counted although it is not written; the roller
    reported no other error. *)
Theorem WriteRoller_result (s s' : St) (r : camli.Roller) (hashes : list string)
    (total : Z) :
  local.WriteRoller s r = (inr (hashes, total), s') →
  length hashes = length (rollspec.yielded r) ∧
  total = wrap64 (rollspec.sizes (rollspec.yielded r)
                  + fixity.Chunk_Size (rollspec.atEOF r)) ∧
  rollspec.failure r = None.
Proof.
  unfold local.WriteRoller. intros (new & -> & Hlen & -> & Hf)%rollAll_result.
  by rewrite Z.add_0_l.
Qed.

(** X8.  A [Write] that fails leaves the database, and so the head, as it
    was. *)
Theorem Write_failure_keeps_head (l l' : @local.Local St) (id : string)
    (r : option string) (f : list (string * string)) (err : error) :
  local.Write l id r f = (inl err, l') →
  local.db l' = local.db l ∧ local.getHead l' = local.getHead l.
Proof.
  intros E. assert (Hdb : local.db l' = local.db l).
  { revert E. unfold local.Write, local.withStore, local.setHead.
    repeat case_match; intros; by simplify_eq/=. }
  split; [done|]. unfold local.getHead. by rewrite Hdb.
Qed.

End RollerFacts.

Lemma WriteRoller_result_witness :
  ∃ (hashes : list string) (total : Z) (s' : disk.Disk),
    testutil.rolled = (inr (hashes, total), s') ∧ length hashes = 1%nat ∧ total = 4.
Proof.
  destruct testutil.rolled as [[e|[hashes total]] s'] eqn:E.
  - exfalso.
    assert (Hok : testutil.isOk testutil.rolled = true) by (vm_compute; reflexivity).
    rewrite E in Hok. discriminate.
  - exists hashes, total, s'. split; [reflexivity|].
    destruct (@WriteRoller_result disk.Disk testutil.diskStore testutil.framedJson
                _ _ _ _ _ E) as (Hl & Ht & _).
    split; [exact Hl|exact Ht].
Defined.

Lemma Write_failure_keeps_head_witness :
  ∃ l' : @local.Local disk.Disk,
    testutil.failedWrite = (inl (OSError "read-only"), l') ∧
    testutil.headSet testutil.stuck = true ∧
    local.getHead l' = local.getHead testutil.stuck.
Proof.
  destruct testutil.failedWrite as [[err|hashes] l'] eqn:E.
  - assert (Herr : fst testutil.failedWrite = inl (OSError "read-only"))
      by (vm_compute; reflexivity).
    rewrite E in Herr. injection Herr as ->.
    exists l'. split; [reflexivity|]. split; [vm_compute; reflexivity|].
    exact (proj2 (@Write_failure_keeps_head disk.Disk testutil.diskStore
                    testutil.framedJson testutil.wholeRoller
                    testutil.stuck l' "doc2" (Some "two") []
                    (OSError "read-only") E)).
  - exfalso.
    assert (Hok : testutil.isOk testutil.failedWrite = false)
      by (vm_compute; reflexivity).
    rewrite E in Hok. discriminate.
Defined.

Section WriteResultFacts.
Context `{!Blake2b} `{!json.Json} `{!camli.Camli}.

Hypothesis Hash_injective : ∀ a b, disk.Hash a = disk.Hash b → a = b.

Lemma holdsValue_written (s s' : disk.Disk) (v : json.value) (h : string) :
  local.MarshalAndWrite s v = (inr h, s') →
  contents.holdsValue s' h v ∧ chain.keeps s s'.
Proof.
  intros (b & HM & Hh & Hs & Hk)%(MarshalAndWrite_inv Hash_injective).
  split; [by exists b|done].
Qed.

Lemma holdsValue_keeps (s s' : disk.Disk) (v : json.value) (h : string) :
  chain.keeps s s' → contents.holdsValue s h v → contents.holdsValue s' h v.
Proof.
  intros [Hk _] (b & HM & -> & Hs). exists b. split; [done|]. split; [done|].
  by apply Hk.
Qed.

Lemma rollAll_holds (r : camli.Roller) :
  ∀ (s s' : disk.Disk) (t total : Z) (hs hashes : list string),
    local.rollAll s r t hs = (inr (hashes, total), s') →
    ∃ new, hashes = hs ++ new ∧
           Forall2 (λ c h, contents.holdsValue s' h (json.VChunk c))
             (rollspec.yielded r) new ∧
           chain.keeps s s'.
Proof.
  induction r as [|[c err] r IH]; intros s s' t total hs hashes E; simpl in E.
  - simplify_eq. exists []. rewrite app_nil_r. split; [done|].
    split; [constructor|apply keeps_refl].
  - destruct err as [e|].
    + destruct e; simplify_eq. exists []. rewrite app_nil_r. split; [done|].
      split; [constructor|apply keeps_refl].
    + destruct (local.MarshalAndWrite s _) as [[e|h] s1] eqn:EW; [discriminate|].
      apply holdsValue_written in EW as [Hv K1].
      apply IH in E as (new & -> & Hall & K2).
      exists (h :: new). rewrite <- app_assoc. split; [done|]. split.
      * simpl. constructor; [by eapply holdsValue_keeps|done].
      * by eapply keeps_trans.
Qed.

End WriteResultFacts.

(** X9.  A [Write] that succeeds on the disk store returns the hashes of the
    chunks, then of the blob, the content and the block, in that order, and
    the store then holds under each of them what it names: the encoding of
    each chunk the roller yielded, of the blob listing the chunk hashes and
    the total size, of the content naming the blob, and of the block naming
    the content and the former head.  The hash of the block, the last one, is
    the new head; the first block has number 1.  The hash has no
    collisions. *)
Theorem Write_returns_new_head `{!Blake2b} `{!json.Json} `{!camli.Camli}
    (l l' : @local.Local disk.Disk) (id : string)
    (r : option string) (f : list (string * string)) (hashes : list string) :
  (∀ a b, disk.Hash a = disk.Hash b → a = b) →
  local.Write l id r f = (inr hashes, l') →
  ∃ (rd : string) (roller : camli.Roller) (chunkHashes : list string)
    (blobHash cHash bHash prev : string) (num : Z),
    r = Some rd ∧
    camli.New rd camli.DefaultMinRollSize = inr roller ∧
    hashes = chunkHashes ++ [blobHash; cHash; bHash] ∧
    Forall2 (λ c h, contents.holdsValue (local.store l') h (json.VChunk c))
      (rollspec.yielded roller) chunkHashes ∧
    contents.holdsValue (local.store l') blobHash
      (json.VBlob {| fixity.ChunkHashes := chunkHashes;
                     fixity.Blob_Size :=
                       wrap64 (rollspec.sizes (rollspec.yielded roller)
                               + fixity.Chunk_Size (rollspec.atEOF roller));
                     fixity.RollSize := camli.DefaultMinRollSize |}) ∧
    contents.holdsValue (local.store l') cHash
      (json.VContent {| fixity.Id := id; fixity.PreviousContentHash := "";
                        fixity.BlobHash := blobHash; fixity.IndexedFields := f;
                        fixity.Content_Hash := ""; fixity.Index := 0;
                        fixity.Content_Store := false |}) ∧
    contents.holdsValue (local.store l') bHash
      (json.VBlock {| fixity.BlockNum := num; fixity.PreviousBlockHash := prev;
                      fixity.ContentHash := cHash; fixity.Block_Hash := "";
                      fixity.Block_Store := false |}) ∧
    local.getHead l = inr prev ∧
    (prev = "" → num = 1) ∧
    local.getHead l' = inr bHash.
Proof.
  unfold local.Write. intros Hinj E.
  destruct r as [rd|]; [|discriminate].
  destruct (camli.New rd _) as [e|roller] eqn:EN; [discriminate|].
  destruct (local.WriteRoller _ roller) as [[e|[cHashes totalSize]] s1] eqn:ER;
    [discriminate|].
  unfold local.WriteRoller in ER.
  pose proof (rollAll_result _ _ _ _ _ _ _ ER) as (new0 & Hn0 & _ & Ht & _).
  apply (rollAll_holds Hinj) in ER as (new & Hn & Hchunks & K1).
  simpl in Hn, Hn0. subst cHashes. clear Hn0. rewrite Z.add_0_l in Ht. subst totalSize.
  destruct (local.MarshalAndWrite s1 _) as [[e|blobHash] s2] eqn:EB; [discriminate|].
  apply (holdsValue_written Hinj) in EB as [Hblob K2].
  destruct (local.getHead l) as [e|prev] eqn:EH; [discriminate|].
  destruct (local.MarshalAndWrite s2 _) as [[e|cHash] s3] eqn:EC; [discriminate|].
  apply (holdsValue_written Hinj) in EC as [Hcontent K3].
  destruct (if decide (prev ≠ "") then _ else _) as [e|lastBlock] eqn:EL;
    [discriminate|].
  destruct (local.MarshalAndWrite s3 _) as [[e|bHash] s4] eqn:EK; [discriminate|].
  apply (holdsValue_written Hinj) in EK as [Hblock K4].
  unfold local.setHead in E.
  destruct (bolt.update_err (local.db l)); [discriminate|]. simplify_eq.
  exists rd, roller, new, blobHash, cHash, bHash, prev, (wrap64 (lastBlock + 1)).
  split; [done|]. split; [done|]. split; [by rewrite <- !app_assoc|]. simpl.
  split.
  { eapply Forall2_impl; [exact Hchunks|]. intros c h Hv.
    eapply holdsValue_keeps; [|exact Hv].
    eapply keeps_trans; [exact K2|]. eapply keeps_trans; [exact K3|exact K4]. }
  split.
  { eapply holdsValue_keeps; [|exact Hblob].
    eapply keeps_trans; [exact K3|exact K4]. }
  split; [by eapply holdsValue_keeps|].
  split; [done|]. split; [done|]. split.
  - intros ->. rewrite decide_False in EL by (intros Hne; by apply Hne).
    by simplify_eq.
  - unfold local.getHead in *. simpl.
    destruct (bolt.view_err (local.db l)); [discriminate|].
    by rewrite !lookup_insert_eq.
Qed.

Lemma Write_returns_new_head_witness :
  ∃ (l' : @local.Local disk.Disk) (chunkHash blobHash cHash bHash : string),
    testutil.oneWrite = (inr [chunkHash; blobHash; cHash; bHash], l') ∧
    @contents.holdsValue testutil.idHash testutil.framedJson (local.store l') bHash
      (json.VBlock {| fixity.BlockNum := 1; fixity.PreviousBlockHash := "";
                      fixity.ContentHash := cHash; fixity.Block_Hash := "";
                      fixity.Block_Store := false |}) ∧
    local.getHead l' = inr bHash.
Proof.
  destruct testutil.oneWrite as [[e|hashes] l'] eqn:E.
  - exfalso.
    assert (Hok : testutil.isOk testutil.oneWrite = true) by (vm_compute; reflexivity).
    rewrite E in Hok. discriminate.
  - destruct (@Write_returns_new_head testutil.idHash testutil.framedJson
                testutil.wholeRoller _ _ _ _ _ _ idHash_inj E)
      as (rd & roller & chunkHashes & blobHash & cHash & bHash & prev & num
          & Hr & Hn & -> & Hchunks & _ & _ & Hblock & Hprev & Hnum & Hh).
    injection Hr as <-. injection Hn as <-. injection Hprev as <-.
    rewrite (Hnum eq_refl) in Hblock.
    apply Forall2_length in Hchunks. simpl in Hchunks.
    destruct chunkHashes as [|chunkHash [|]]; try discriminate Hchunks.
    exists l', chunkHash, blobHash, cHash, bHash.
    split; [reflexivity|]. split; [exact Hblock|exact Hh].
Defined.

(** X10.  A block goes through the store unchanged: what
    [ReadAndUnmarshal] decodes under the hash [MarshalAndWrite] returned is
    the block written, without the fields that are not stored, when decoding
    inverts encoding and the file opens. *)
Theorem block_through_store `{!Blake2b} `{!json.Json}
    (s s' : disk.Disk) (b : fixity.Block) (h : string) :
  (∀ v bs, json.Marshal (json.VBlock v) = inr bs →
           json.UnmarshalBlock bs = inr (json.storedBlock v)) →
  local.MarshalAndWrite s (json.VBlock b) = (inr h, s') →
  os.open_err (disk.fs s) !! filepath.Join (disk.path s) h = None →
  local.ReadAndUnmarshal s' h = inr (json.storedBlock b).
Proof.
  intros Hcodec E Ho. unfold local.MarshalAndWrite in E.
  destruct (json.Marshal (json.VBlock b)) as [e|bs] eqn:EM; [discriminate|].
  simpl in E. destruct (disk.Write s bs) as [[e|h'] s1] eqn:EW; [discriminate|].
  simplify_eq.
  pose proof (disk_Write_inv _ _ _ _ EW) as (-> & Hp & Hf & Hoe).
  unfold local.ReadAndUnmarshal, local.ReadAndUnmarshalWithBytes, local.ReadAll.
  simpl. unfold disk.Read, os.Open.
  rewrite Hp, Hoe, Ho, Hf, lookup_insert_eq.
  by rewrite (Hcodec _ _ EM).
Qed.

Lemma block_through_store_witness :
  ∃ (h : string) (s' : disk.Disk),
    testutil.blockWritten = (inr h, s') ∧
    @local.ReadAndUnmarshal disk.Disk testutil.diskStore testutil.framedJson s' h
    = inr (json.storedBlock testutil.genesisBlock).
Proof.
  destruct testutil.blockWritten as [[e|h] s'] eqn:E.
  - exfalso.
    assert (Hok : testutil.isOk testutil.blockWritten = true)
      by (vm_compute; reflexivity).
    rewrite E in Hok. discriminate.
  - exists h, s'. split; [reflexivity|].
    apply (@block_through_store testutil.idHash testutil.framedJson
             testutil.emptyDisk s' testutil.genesisBlock h
             framed_Unmarshal_Block E).
    reflexivity.
Defined.

(** X11.  The content [Previous] returns can be followed again: its store is
    set; and its index is one more than the index of the content it was called
    on when that index is known (not 0). *)
Theorem Content_Previous_index {St : Type} `{!store.Store St} `{!json.Json}
    (s : St) (c pc : fixity.Content) :
  history.Content_Previous s c = inr pc →
  fixity.Content_Store pc = true ∧
  (fixity.Index c ≠ 0 → fixity.Index pc = wrap64 (fixity.Index c + 1)) ∧
  (1 ≤ fixity.Index c < 2 ^ 63 - 1 → fixity.Index pc = fixity.Index c + 1).
Proof.
  unfold history.Content_Previous. intros E.
  destruct (decide (fixity.PreviousContentHash c = "")); [discriminate|].
  destruct (fixity.Content_Store c) eqn:ES; simpl in E; [|discriminate].
  destruct (history.readAndUnmarshal _ _ _) as [e|stored]; [discriminate|].
  simplify_eq. simpl. split; [done|]. split.
  - intros Hne. by rewrite decide_True.
  - intros Hi. rewrite decide_True by lia. apply wrap64_small. lia.
Qed.

Lemma Content_Previous_index_witness :
  ∃ pc : fixity.Content,
    testutil.previousOfSecond = inr pc ∧
    fixity.Content_Store pc = true ∧ fixity.Index pc = 2.
Proof.
  destruct testutil.previousOfSecond as [e|pc] eqn:E.
  - exfalso.
    assert (Hok : testutil.isValue testutil.previousOfSecond = true)
      by (vm_compute; reflexivity).
    rewrite E in Hok. discriminate.
  - exists pc. split; [reflexivity|].
    destruct (@Content_Previous_index disk.Disk testutil.diskStore testutil.framedJson
                _ _ _ E) as (Hs & _ & Hi).
    split; [exact Hs|]. apply Hi. simpl. lia.
Defined.

(** ** The index query, continued *)

Section QueryResultFacts.
Context {D : Type} `{!dbindex.Database D}.

Lemma fetch_entries (dbi : D) (fromEntry : Z) (n : nat) :
  ∀ (i i' : Z) (es es' : list string),
    dbindex.fetch dbi fromEntry n i es = inr (i', es') →
    0 ≤ i → (Z.to_nat i + n ≤ length es)%nat →
    i ≤ i' ≤ i + Z.of_nat n ∧
    length es' = length es ∧
    (∀ j : nat, (Z.to_nat i ≤ j < Z.to_nat i')%nat →
       ∃ h, dbindex.GetIndexEntry dbi (wrap64 (fromEntry + Z.of_nat j)) = inr h ∧
            es' !! j = Some h) ∧
    (∀ j : nat, (j < Z.to_nat i)%nat → es' !! j = es !! j) ∧
    (i' < i + Z.of_nat n →
     dbindex.GetIndexEntry dbi (wrap64 (fromEntry + i')) = inl ErrNoRecord).
Proof.
  induction n as [|n IH]; intros i i' es es' E Hi Hlen; simpl in E.
  - simplify_eq. repeat split; try done; try (intros; lia).
  - destruct (dbindex.GetIndexEntry dbi (wrap64 (fromEntry + i))) as [e|h] eqn:EG.
    + destruct e; simplify_eq. repeat split; try done; try (intros; lia).
    + apply IH in E as (Hb & Hl & Hnew & Hold & Hend);
        [|lia|rewrite length_insert; lia].
      rewrite length_insert in Hl.
      split; [lia|]. split; [done|]. split; [|split].
      * intros j Hj. destruct (decide (j = Z.to_nat i)) as [->|Hne].
        -- exists h. rewrite Z2Nat.id by lia. split; [done|].
           rewrite Hold by lia. apply list_lookup_insert_eq. lia.
        -- apply Hnew. lia.
      * intros j Hj. rewrite Hold by lia. apply list_lookup_insert_ne. lia.
      * intros Hlt. apply Hend. lia.
Qed.

(** X12.  What a successful [Query] returns: the version of the index and at
    most [Limit] hashes, which are the entries [FromEntry], [FromEntry + 1],
    ... in order; when there are fewer than [Limit], the entry after the last
    one does not exist.  A result is only returned for a non-zero [FromEntry]
    and a positive [Limit]. *)
Theorem Query_result_entries (dbi : D) (qy : index.Query) (res : index.Results) :
  dbindex.Query dbi qy = Done (inr res) →
  dbindex.GetNodeId dbi = inr (index.Results_IndexVersion res) ∧
  index.FromEntry qy ≠ 0 ∧ 0 < index.Limit qy ∧
  len (index.Hashes res) ≤ index.Limit qy ∧
  (∀ (j : nat) (h : string), index.Hashes res !! j = Some h →
     dbindex.GetIndexEntry dbi (wrap64 (index.FromEntry qy + Z.of_nat j)) = inr h) ∧
  (len (index.Hashes res) < index.Limit qy →
   dbindex.GetIndexEntry dbi (wrap64 (index.FromEntry qy + len (index.Hashes res)))
   = inl ErrNoRecord).
Proof.
  unfold dbindex.Query. intros E.
  destruct (dbindex.GetNodeId dbi) as [e|v]; [discriminate|].
  destruct (decide _); [discriminate|].
  destruct (decide (index.Limit qy = 0)) as [|Hl0]; [discriminate|].
  destruct (decide (index.FromEntry qy ≠ 0)) as [Hf|]; [|discriminate].
  destruct (Z.ltb_spec (index.Limit qy) 0) as [|Hl]; [discriminate|].
  destruct (dbindex.fetch _ _ _ _ _) as [e|[i es]] eqn:EF; [discriminate|].
  apply fetch_entries in EF as (Hb & Hlen & Hnew & _ & Hend);
    [|lia|rewrite length_replicate; lia].
  rewrite length_replicate in Hlen.
  simplify_eq. simpl. unfold slice, len. rewrite drop_0, Z.sub_0_r.
  rewrite length_take, Hlen.
  replace (Z.of_nat (Z.to_nat i `min` Z.to_nat (index.Limit qy))) with i by lia.
  split; [done|]. split; [done|]. split; [lia|]. split; [lia|]. split.
  - intros j h Hj. apply lookup_take_Some in Hj as [Hj Hlt].
    destruct (Hnew j ltac:(simpl; lia)) as (h' & HG & Hes). congruence.
  - intros Hlt. apply Hend. lia.
Qed.

(** X13.  [QueryOne] asks for one entry whatever [Limit] the caller set: once
    the version check has passed and [FromEntry] is not 0, it returns the
    entry at [FromEntry]; and when that entry does not exist it returns a
    result with an empty hash and no error. *)
Theorem QueryOne_first_entry (dbi : D) (qy : index.Query) (v : string) :
  dbindex.GetNodeId dbi = inr v →
  index.IndexVersion qy = "" ∨ v = index.IndexVersion qy →
  index.FromEntry qy ≠ 0 →
  (∀ h, dbindex.GetIndexEntry dbi (wrap64 (index.FromEntry qy)) = inr h →
        dbindex.QueryOne dbi qy
        = Done (inr {| index.Result_IndexVersion := v; index.Hash := h |})) ∧
  (dbindex.GetIndexEntry dbi (wrap64 (index.FromEntry qy)) = inl ErrNoRecord →
   dbindex.QueryOne dbi qy
   = Done (inr {| index.Result_IndexVersion := v; index.Hash := "" |})).
Proof.
  intros Hv Hver Hf. unfold dbindex.QueryOne, dbindex.Query. simpl.
  rewrite Hv. rewrite decide_False by (intros [? ?]; destruct Hver; congruence).
  rewrite decide_True by done.
  simpl. rewrite Z.add_0_r. split.
  - by intros h ->.
  - by intros ->.
Qed.

End QueryResultFacts.

Lemma Query_result_entries_witness :
  @dbindex.GetIndexEntry testutil.memDB testutil.memDatabase testutil.twoEntries
    (wrap64 (1 + Z.of_nat 1)) = inr "h2".
Proof.
  apply (proj1 (proj2 (proj2 (proj2 (proj2
    (@Query_result_entries testutil.memDB testutil.memDatabase testutil.twoEntries
       {| index.FromEntry := 1; index.Limit := 5; index.IndexVersion := "" |}
       {| index.Results_IndexVersion := "v1"; index.Hashes := ["h1"; "h2"] |}
       eq_refl))))) 1%nat "h2").
  reflexivity.
Defined.

Lemma QueryOne_first_entry_witness :
  @dbindex.QueryOne testutil.memDB testutil.memDatabase testutil.twoEntries
    {| index.FromEntry := 2; index.Limit := 50; index.IndexVersion := "v1" |}
  = Done (inr {| index.Result_IndexVersion := "v1"; index.Hash := "h2" |}).
Proof.
  apply (proj1 (@QueryOne_first_entry testutil.memDB testutil.memDatabase
                  testutil.twoEntries
                  {| index.FromEntry := 2; index.Limit := 50; index.IndexVersion := "v1" |}
                  "v1" eq_refl (or_intror eq_refl) ltac:(discriminate)) "h2").
  reflexivity.
Defined.

(** ** The HTTP handlers, continued *)

Section MoreHandlerFacts.
Context {St I : Type} `{!store.Store St} `{!node.Index I} `{!json.Json}.

(** X14.  On a fresh response the status of [HeadBlobHandler] tells what
    [Exists] answered: 200 with nothing written exactly when the blob
    exists, 404 exactly when it does not, 500 exactly when the store
    failed. *)
Theorem HeadBlobHandler_status (n : @node.Node St I) (w : http.ResponseWriter)
    (r : http.Request) :
  http.status w = None →
  (store.Exists (node.store_ n) (http.URLParam_hash r) = inr true
   ↔ http.Code (node.HeadBlobHandler n w r) = 200) ∧
  (store.Exists (node.store_ n) (http.URLParam_hash r) = inr true →
   node.HeadBlobHandler n w r = w) ∧
  (store.Exists (node.store_ n) (http.URLParam_hash r) = inr false
   ↔ http.Code (node.HeadBlobHandler n w r) = 404) ∧
  ((∃ err, store.Exists (node.store_ n) (http.URLParam_hash r) = inl err)
   ↔ http.Code (node.HeadBlobHandler n w r) = 500).
Proof.
  intros Hw. unfold node.HeadBlobHandler.
  assert (Hfresh : http.Code w = 200) by (unfold http.Code; by rewrite Hw).
  destruct (store.Exists _ _) as [err|[|]]; simpl;
    rewrite ?Error_Code by done; rewrite ?Hfresh;
    unfold http.StatusInternalServerError, http.StatusNotFound;
    repeat split; try done; try (intros [? ?]; done); eauto.
Qed.

End MoreHandlerFacts.

Lemma HeadBlobHandler_status_witness :
  http.Code (@node.HeadBlobHandler disk.Disk testutil.memDB testutil.diskStore
               testutil.aNode (http.NewRecorder false) testutil.putAbc) = 404.
Proof.
  apply (proj1 (proj1 (proj2 (proj2
    (@HeadBlobHandler_status disk.Disk testutil.memDB testutil.diskStore
       testutil.aNode (http.NewRecorder false) testutil.putAbc eq_refl))))).
  reflexivity.
Defined.

(** X15.  What is put can be got: on the disk store, after [PutBlobHandler]
    was given a body under its own hash, it answers 200 with an empty
    response, and [GetBlobHandler] for that hash answers 200 with the body,
    when the file can be written and opened and the client can be written
    to. *)
Theorem Put_then_Get `{!Blake2b} {I : Type}
    (n : @node.Node disk.Disk I) (w : http.ResponseWriter) (r : http.Request) :
  http.status w = None → http.body w = "" → http.broken w = false →
  http.URLParam_hash r = disk.Hash (http.Body r) →
  os.write_err (disk.fs (node.store_ n))
    !! filepath.Join (disk.path (node.store_ n)) (http.URLParam_hash r) = None →
  os.open_err (disk.fs (node.store_ n))
    !! filepath.Join (disk.path (node.store_ n)) (http.URLParam_hash r) = None →
  fst (node.PutBlobHandler n w r) = w ∧
  http.Code (node.GetBlobHandler (snd (node.PutBlobHandler n w r)) w r) = 200 ∧
  http.body (node.GetBlobHandler (snd (node.PutBlobHandler n w r)) w r) = http.Body r.
Proof.
  intros Hst Hbody Hbr Hh Hw Ho.
  unfold node.PutBlobHandler, store.WriteHashReader. simpl.
  unfold disk.WriteHash. rewrite decide_False by (intros Hne; by apply Hne).
  unfold disk.writeHash, os.WriteFile. rewrite Hw. simpl. split; [done|].
  unfold node.GetBlobHandler. simpl. unfold disk.Read, os.Open. simpl.
  rewrite Ho, lookup_insert_eq. unfold http.Copy.
  destruct (decide (http.Body r = "")) as [->|Hne].
  - split; [unfold http.Code; by rewrite Hst|done].
  - unfold http.Write, http.WriteHeader. rewrite Hst. simpl. rewrite Hbr. simpl.
    split; [done|]. by rewrite Hbody.
Qed.

Lemma Put_then_Get_witness :
  http.body
    (@node.GetBlobHandler disk.Disk testutil.memDB testutil.diskStore
       (snd (@node.PutBlobHandler disk.Disk testutil.memDB testutil.diskStore
               testutil.aNode (http.NewRecorder false) testutil.putAbc))
       (http.NewRecorder false) testutil.putAbc)
  = "abc".
Proof.
  apply (@Put_then_Get testutil.idHash testutil.memDB testutil.aNode
           (http.NewRecorder false) testutil.putAbc); reflexivity.
Defined.

Section QueryHandlerFacts.
Context {St D : Type} `{!dbindex.Database D} `{!json.Json}.

Lemma queryParams_error_status (w w' : http.ResponseWriter)
    (params : list (string * (string * list string))) :
  http.status w = None →
  ∀ qy, node.queryParams w params qy = inl w' →
        http.Code w' = http.StatusInternalServerError.
Proof.
  intros Hw. induction params as [|[k [v0 vs]] params IH]; intros qy E;
    cbn [node.queryParams] in E; [discriminate|].
  repeat case_match; simplify_eq; try (by eapply IH); by apply Error_Code.
Qed.

Lemma queryParams_keeps_FromEntry (w : http.ResponseWriter)
    (params : list (string * (string * list string))) :
  Forall (λ kv, kv.1 ≠ "fromEntry") params →
  ∀ qy qy', node.queryParams w params qy = inr qy' →
            index.FromEntry qy' = index.FromEntry qy.
Proof.
  induction 1 as [|[k [v0 vs]] params Hk _ IH]; intros qy qy' E;
    cbn [node.queryParams] in E; [by simplify_eq|].
  simpl in Hk. repeat case_match; simplify_eq; by apply IH in E.
Qed.

(** X16.  The query endpoint on the database index never answers 200 to a
    request without a [fromEntry] parameter: on a fresh response it answers
    404 or 500, because the query starts from entry 0. *)
Theorem GetQueryHandler_without_fromEntry (n : @node.Node St D)
    (w : http.ResponseWriter) (r : http.Request) :
  http.status w = None →
  Forall (λ kv, kv.1 ≠ "fromEntry") (http.URLQuery r) →
  ∃ w', node.GetQueryHandler n w r = Done w' ∧
        (http.Code w' = 404 ∨ http.Code w' = 500).
Proof.
  intros Hw Hno. unfold node.GetQueryHandler.
  destruct (node.queryParams w _ _) as [w'|qy] eqn:EP.
  - exists w'. split; [done|]. right. by eapply queryParams_error_status.
  - apply (queryParams_keeps_FromEntry w _ Hno) in EP. simpl in EP.
    simpl. unfold dbindex.Query. rewrite EP.
    destruct (dbindex.GetNodeId (node.index_ n)) as [e|v].
    { eexists. split; [done|]. right. by apply Error_Code. }
    destruct (decide _).
    { eexists. split; [done|]. right. by apply Error_Code. }
    destruct (decide (index.Limit qy = 0)).
    { eexists. split; [done|]. left. by apply Error_Code. }
    rewrite decide_False by (intros Hne; by apply Hne).
    eexists. split; [done|]. left. by apply Error_Code.
Qed.

(** X17.  A negative [limit] with a [fromEntry] other than 0 makes the query
    endpoint on the database index panic, once the version check has
    passed: the slice of entries is made with a negative length. *)
Theorem GetQueryHandler_negative_limit (n : @node.Node St D)
    (w : http.ResponseWriter) (r : http.Request) (qy : index.Query) (v : string) :
  node.queryParams w (http.URLQuery r) nodespec.defaultQuery = inr qy →
  index.Limit qy < 0 →
  index.FromEntry qy ≠ 0 →
  dbindex.GetNodeId (node.index_ n) = inr v →
  index.IndexVersion qy = "" ∨ v = index.IndexVersion qy →
  node.GetQueryHandler n w r = Panic "makeslice: len out of range".
Proof.
  intros EP Hl Hf Hv Hver. unfold node.GetQueryHandler.
  change {| index.FromEntry := 0; index.Limit := 5; index.IndexVersion := "" |}
    with nodespec.defaultQuery.
  rewrite EP. simpl. unfold dbindex.Query. rewrite Hv.
  rewrite decide_False by (intros [? ?]; destruct Hver; congruence).
  rewrite decide_False by lia. rewrite decide_True by done.
  destruct (Z.ltb_spec (index.Limit qy) 0); [done|lia].
Qed.

End QueryHandlerFacts.

Lemma GetQueryHandler_without_fromEntry_witness :
  testutil.queryStatus [("limit", ("2", []))] = Done 404.
Proof.
  destruct (@GetQueryHandler_without_fromEntry disk.Disk testutil.memDB
              testutil.memDatabase testutil.framedJson testutil.aNode
              (http.NewRecorder false) (testutil.request "" "" [("limit", ("2", []))])
              eq_refl) as (w' & Hh & Hc).
  - repeat constructor. discriminate.
  - unfold testutil.queryStatus, testutil.memIndex. rewrite Hh.
    assert (E : Done w' = Done (http.Error (http.NewRecorder false)
                                  (http.StatusText http.StatusNotFound)
                                  http.StatusNotFound))
      by (rewrite <- Hh; reflexivity).
    injection E as ->. reflexivity.
Defined.

Lemma GetQueryHandler_negative_limit_witness :
  testutil.queryStatus [("fromEntry", ("1", [])); ("limit", ("-1", []))]
  = Panic "makeslice: len out of range".
Proof.
  unfold testutil.queryStatus, testutil.memIndex.
  rewrite (@GetQueryHandler_negative_limit disk.Disk testutil.memDB
             testutil.memDatabase testutil.framedJson testutil.aNode
             (http.NewRecorder false)
             (testutil.request "" "" [("fromEntry", ("1", [])); ("limit", ("-1", []))])
             {| index.FromEntry := 1; index.Limit := -1; index.IndexVersion := "" |}
             "v1" eq_refl ltac:(simpl; lia) ltac:(discriminate) eq_refl
             (or_introl eq_refl)).
  reflexivity.
Defined.

(** ** Free-text queries *)

Section FreeTextFacts.
Context `{!q.Operators} `{!q.Str}.

Lemma fold_step_noColon (parts : list string) :
  Forall qspec.noColon parts →
  ∀ (fl : list string) (cs : list q.Constraint),
    fold_left q.step parts (fl, cs) = (fl ++ parts, cs).
Proof.
  induction 1 as [|p parts Hp _ IH]; intros fl cs.
  - simpl. by rewrite app_nil_r.
  - cbn [fold_left]. unfold q.step at 2. rewrite (splitPart_value p Hp).
    rewrite decide_True by done. rewrite IH. by rewrite <- app_assoc.
Qed.

(** X18.  When no token of the input has a colon, [FromString] gives a
    single Equal constraint without a field whose value is the tokens
    joined by single spaces, and it is the query's constraint, not under an
    And; when there is no token at all it gives an And of no constraints. *)
Theorem FromString_free_text (s : string) :
  Forall qspec.noColon (q.ToArgv s) →
  q.FromString s =
    match q.ToArgv s with
    | [] => q.And q.New []
    | ts => q.Const q.New
              (q.MkConstraint q.operator_Equal None
                 (Some (q.value_String (q.Join ts " "))) [])
    end.
Proof.
  intros Hts. unfold q.FromString. rewrite (fold_step_noColon _ Hts). simpl.
  by destruct (q.ToArgv s).
Qed.

End FreeTextFacts.

Lemma FromString_free_text_witness :
  @q.FromString testutil.operators testutil.spaces "foo bar"
  = q.Const q.New (q.MkConstraint "eq" None (Some (q.value_String "foo bar")) []).
Proof.
  rewrite (@FromString_free_text testutil.operators testutil.spaces "foo bar").
  - reflexivity.
  - repeat constructor.
Defined.

(** ** Writing the chunks of a chunker *)

Section ChunkFacts.
Context {W : Type} `{!wutil.BlobWriter W} `{!wchunks.Hashers}.

Lemma chunkAll_result (r : chunk.Chunker) :
  ∀ (w w' : W) (t total : Z) (wr written : string) (hs hashes : list fixity.Ref),
    wchunks.chunkAll w r t wr hs = (inr (hashes, total, written), w') →
    ∃ new, hashes = hs ++ new ∧
           length new = length (wchunks.yielded r) ∧
           total = wrap64 (t + wchunks.sizes (wchunks.yielded r)
                           + chunk.Size (wchunks.atEOF r)) ∧
           written = wr +:+ wchunks.stream (wchunks.yielded r).
Proof.
  induction r as [|[c err] r IH]; intros w w' t total wr written hs hashes E;
    simpl in E.
  - simplify_eq. exists []. simpl. rewrite app_nil_r, append_nil_r.
    repeat split. f_equal. lia.
  - destruct err as [e|].
    + destruct e; simplify_eq. exists []. simpl. rewrite app_nil_r, append_nil_r.
      repeat split. f_equal. lia.
    + destruct (wutil.Write w _) as [[e|h] w1]; [discriminate|].
      apply IH in E as (new & -> & Hlen & -> & ->).
      exists (h :: new). simpl. rewrite <- app_assoc. split; [done|].
      split; [by rewrite Hlen|]. split; [|by rewrite append_assoc].
      rewrite Z.add_assoc, <- (Z.add_assoc (wrap64 _)), wrap64_add_l. f_equal. lia.
Qed.

(** X19.  A successful [WriteChunks] returns one ref for each chunk the
    chunker yielded before the end of the stream; the total size is the
    64-bit sum of their sizes and of the size of the chunk that came with
    [io.EOF]; and the content hash is the hex form of the default hasher's
    digest of the bytes of the yielded chunks, one after the other, the bytes
    of the chunk that came with [io.EOF] left out. *)
Theorem WriteChunks_result (w w' : W) (r : chunk.Chunker) (refs : list fixity.Ref)
    (totalSize : Z) (contentHash : string) :
  wchunks.WriteChunks w r = (inr (refs, totalSize, contentHash), w') →
  ∃ digest : string → string,
    wchunks.Hasher wchunks.DefaultMultihashName = inr digest ∧
    length refs = length (wchunks.yielded r) ∧
    totalSize = wrap64 (wchunks.sizes (wchunks.yielded r)
                        + chunk.Size (wchunks.atEOF r)) ∧
    contentHash
    = hex.EncodeToString (digest (wchunks.stream (wchunks.yielded r))).
Proof.
  unfold wchunks.WriteChunks. intros E.
  destruct (wchunks.Hasher _) as [e|digest]; [discriminate|].
  destruct (wchunks.chunkAll _ _ _ _ _) as [[e|[[hashes total] written]] w1] eqn:EC;
    [discriminate|].
  apply chunkAll_result in EC as (new & -> & Hlen & -> & ->). simplify_eq.
  exists digest. rewrite append_nil_l, Z.add_0_l. by repeat split.
Qed.

(** X20.  The content hash does not depend on where the chunks are cut, nor
    on the writer: two successful runs of [WriteChunks] over chunkers that
    yield the same bytes return the same content hash. *)
Theorem WriteChunks_checksum_any_cut (w1 w1' w2 w2' : W) (r1 r2 : chunk.Chunker)
    (refs1 refs2 : list fixity.Ref) (size1 size2 : Z) (hash1 hash2 : string) :
  wchunks.stream (wchunks.yielded r1) = wchunks.stream (wchunks.yielded r2) →
  wchunks.WriteChunks w1 r1 = (inr (refs1, size1, hash1), w1') →
  wchunks.WriteChunks w2 r2 = (inr (refs2, size2, hash2), w2') →
  hash1 = hash2.
Proof.
  unfold wchunks.WriteChunks. intros Hs E1 E2.
  destruct (wchunks.Hasher _) as [e|digest]; [discriminate|].
  destruct (wchunks.chunkAll w1 _ _ _ _) as [[e|[[h1 t1] wr1]] u1] eqn:EC1;
    [discriminate|].
  destruct (wchunks.chunkAll w2 _ _ _ _) as [[e|[[h2 t2] wr2]] u2] eqn:EC2;
    [discriminate|].
  apply chunkAll_result in EC1 as (? & _ & _ & _ & ->).
  apply chunkAll_result in EC2 as (? & _ & _ & _ & ->).
  simplify_eq. by rewrite Hs.
Qed.

End ChunkFacts.

Lemma WriteChunks_result_witness :
  ∃ (refs : list fixity.Ref) (w' : disk.Disk),
    testutil.chunksWritten = (inr (refs, 3, hex.EncodeToString "abc"), w') ∧
    length refs = 2%nat.
Proof.
  destruct testutil.chunksWritten as [[e|[[refs total] hash]] w'] eqn:E.
  - exfalso. assert (Hok : testutil.isOk testutil.chunksWritten = true)
      by (vm_compute; reflexivity).
    rewrite E in Hok. discriminate.
  - destruct (@WriteChunks_result disk.Disk testutil.diskWriter testutil.hashers
                _ _ _ _ _ _ E) as (digest & Hd & Hlen & -> & ->).
    injection Hd as <-. exists refs, w'. split; [reflexivity|exact Hlen].
Defined.

Lemma WriteChunks_checksum_any_cut_witness :
  match testutil.oneChunkWritten, testutil.chunksWritten with
  | (inr (_, _, hash1), _), (inr (_, _, hash2), _) => hash1 = hash2
  | _, _ => False
  end.
Proof.
  destruct testutil.oneChunkWritten as [[e|[[refs1 size1] hash1]] w1] eqn:E1.
  { assert (Hok : testutil.isOk testutil.oneChunkWritten = true)
      by (vm_compute; reflexivity).
    rewrite E1 in Hok. discriminate. }
  destruct testutil.chunksWritten as [[e|[[refs2 size2] hash2]] w2] eqn:E2.
  { assert (Hok : testutil.isOk testutil.chunksWritten = true)
      by (vm_compute; reflexivity).
    rewrite E2 in Hok. discriminate. }
  exact (@WriteChunks_checksum_any_cut disk.Disk testutil.diskWriter testutil.hashers
           testutil.emptyDisk w1 testutil.emptyDisk w2
           testutil.oneChunk testutil.aChunker
           refs1 refs2 size1 size2 hash1 hash2 eq_refl E1 E2).
Defined.

(** ** The short form of a hash *)

Lemma dropBytes_suffix (n : nat) :
  ∀ s : string, (n ≤ String.length s)%nat →
    ∃ pre, s = pre +:+ cmd.dropBytes n s ∧ String.length pre = n ∧
           String.length (cmd.dropBytes n s) = (String.length s - n)%nat.
Proof.
  induction n as [|n IH]; intros s Hn.
  - exists "". simpl. rewrite append_nil_l. split; [done|]. split; [done|].
    destruct s; simpl; lia.
  - destruct s as [|c s]; simpl in Hn; [lia|].
    destruct (IH s ltac:(lia)) as (pre & Hs & Hl & Hd).
    exists (String c pre). rewrite append_cons. simpl.
    split; [by rewrite <- Hs|]. split; [by rewrite Hl|done].
Qed.

(** X21.  [sumHash] shortens a hash to its last eight bytes: of a hash of at
    least eight bytes it returns the suffix of length eight, of a shorter
    one it panics, and with [doNothing] it returns the hash as it is,
    whatever its length. *)
Theorem sumHash_last_eight (h : string) :
  cmd.sumHash h true = Done h ∧
  ((8 ≤ String.length h)%nat →
   ∃ pre out, cmd.sumHash h false = Done out ∧ h = pre +:+ out ∧
              String.length out = 8%nat) ∧
  ((String.length h < 8)%nat → ∃ msg, cmd.sumHash h false = Panic msg).
Proof.
  unfold cmd.sumHash. split; [done|]. split.
  - intros Hl. destruct (Nat.ltb_spec (String.length h) 8); [lia|].
    destruct (dropBytes_suffix (String.length h - 8) h ltac:(lia))
      as (pre & Hs & _ & Hd).
    exists pre, (cmd.dropBytes (String.length h - 8) h).
    split; [done|]. split; [done|]. lia.
  - intros Hl. destruct (Nat.ltb_spec (String.length h) 8); [|lia]. eauto.
Qed.

Lemma sumHash_last_eight_witness :
  ∃ pre out, cmd.sumHash "blake2b256-0123" false = Done out ∧
             "blake2b256-0123" = pre +:+ out ∧ String.length out = 8%nat.
Proof.
  apply (proj1 (proj2 (sumHash_last_eight "blake2b256-0123"))). simpl. lia.
Defined.

(** ** The registered configure functions *)

Section ConfigFacts.
Context {TypeConfig : Type}.

Lemma applyAll_app (fs gs : @config.Configures TypeConfig) :
  ∀ c, config.applyAll (fs ++ gs) c =
       match config.applyAll fs c with
       | inl err => inl err
       | inr c' => config.applyAll gs c'
       end.
Proof.
  induction fs as [|f fs IH]; intros c; simpl; [done|].
  destruct (f c); [done|]. apply IH.
Qed.

(** X22.  The configure functions run in the order they were registered,
    each on the configuration the ones before it built: after one more
    [Configure f], [NewConfig] is what it was before, then [f]; and once a
    function fails, the functions registered after it are not run and the
    error is the result. *)
Theorem NewConfig_after_Configure (configures : @config.Configures TypeConfig)
    (f : config.Config → result config.Config) :
  config.NewConfig (config.Configure configures f) =
    match config.NewConfig configures with
    | inl err => inl err
    | inr c => f c
    end.
Proof.
  unfold config.NewConfig, config.Configure. rewrite applyAll_app.
  destruct (config.applyAll configures _); [done|]. simpl. by destruct (f _).
Qed.

End ConfigFacts.
